(** * AI Stock Signal: indicator engine, refresh machines, error
      classification and call scheduling

    A shallow embedding of the TypeScript sources
    - [services/geminiService.ts]  (indicators, error classification,
      provider calls),
    - [components/SparklineChart.tsx] (the chart's EMA and series),
    - [components/StockCard.tsx] (what a card shows),
    - [utils/mockData.ts] (the candle generator),
    - [App.tsx] (per-symbol refresh machines, heartbeat, sentiment trigger,
      chat),
    followed by the properties of the specification that concern them. *)

From Stdlib Require Import ZArith QArith Qround Qabs Ascii String Lia.
From stdpp Require Import base option list strings gmap fin_maps.

Set Warnings "-register-all".

Local Open Scope string_scope.
Local Open Scope nat_scope.
Local Open Scope list_scope.

(** ** JavaScript numbers

    Every [number] of the sources is an IEEE-754 double.  The embedding does
    not fix their arithmetic: the indicator code is written over an interface
    of the operations it uses, with no law assumed about them, so that every
    statement proved below holds for doubles as well as for exact rationals
    (the instance [Qnumber] used to run the code). *)

Module JsNum.

Class JsNumber (num : Type) := {
  of_Z : Z → num;              (* an integer literal or an array length *)
  nan : num;                   (* what arithmetic on [undefined] yields *)
  num_add : num → num → num;   (* a + b *)
  num_sub : num → num → num;   (* a - b *)
  num_mul : num → num → num;   (* a * b *)
  num_div : num → num → num;   (* a / b *)
  num_neg : num → num;         (* -a *)
  num_gt : num → num → bool;   (* a > b *)
  num_lt : num → num → bool;   (* a < b *)
  num_seq : num → num → bool;  (* a === b *)
  toFixed2 : num → num;        (* parseFloat(a.toFixed(2)) *)
}.

Declare Scope js_scope.
Delimit Scope js_scope with js.
Infix "⊕" := num_add (at level 50, left associativity) : js_scope.
Infix "⊖" := num_sub (at level 50, left associativity) : js_scope.
Infix "⊗" := num_mul (at level 40, left associativity) : js_scope.
Infix "⊘" := num_div (at level 40, left associativity) : js_scope.
Arguments of_Z {num _} _%_Z.

Definition of_nat {num : Type} `{!JsNumber num} (n : nat) : num := of_Z (Z.of_nat n).

(** [arr[i]] read as a number: an index outside the array gives
    [undefined], which every arithmetic operator turns into NaN. *)
Definition get {num : Type} `{!JsNumber num} (arr : list num) (i : nat) : num :=
  default nan (arr !! i).

(** [arr[arr.length - 1]], used in arithmetic. *)
Definition get_last {num : Type} `{!JsNumber num} (arr : list num) : num :=
  default nan (last arr).

(** [for (let i = from; i < to; i++) s = body i s]. *)
Definition for_loop {St : Type} (from to : nat) (body : nat → St → St) (s : St) : St :=
  foldl (λ acc i, body i acc) s (seq from (to - from)).

(** [arr.slice(start)]: a negative [start] counts from the end. *)
Definition slice_from {A : Type} (start : Z) (arr : list A) : list A :=
  if (start <? 0)%Z
  then drop (Z.to_nat (Z.max (Z.of_nat (length arr) + start) 0)) arr
  else drop (Z.to_nat start) arr.

(** Exact rational arithmetic, to run the indicator code on examples.
    Division by zero is [0] as in [Qdiv]; rounding is to the nearest
    hundredth, halves up. *)
Definition Qround2 (q : Q) : Q :=
  Qred (inject_Z (Qfloor (q * 100 + Qmake 1 2)) / 100)%Q.

#[export] Instance Qnumber : JsNumber Q := {|
  of_Z := inject_Z;
  nan := 0%Q;
  num_add := λ a b, Qred (a + b)%Q;
  num_sub := λ a b, Qred (a - b)%Q;
  num_mul := λ a b, Qred (a * b)%Q;
  num_div := λ a b, Qred (a / b)%Q;
  num_neg := λ a, Qred (- a)%Q;
  num_gt := λ a b, negb (Qle_bool a b);
  num_lt := λ a b, negb (Qle_bool b a);
  num_seq := Qeq_bool;
  toFixed2 := Qround2;
|}.

(** Further operations on numbers, used by the chart and by the candle
    generator; again no law is assumed. *)
Class JsMath (num : Type) := {
  of_decimal : Q → num;        (* a decimal literal such as 1.75 *)
  num_le : num → num → bool;   (* a <= b *)
  num_ge : num → num → bool;   (* a >= b *)
  num_floor : num → num;       (* Math.floor(a) *)
  num_abs : num → num;         (* Math.abs(a) *)
}.

#[export] Instance Qmath : JsMath Q := {|
  of_decimal := λ q, Qred q;
  num_le := Qle_bool;
  num_ge := λ a b, Qle_bool b a;
  num_floor := λ a, inject_Z (Qfloor a);
  num_abs := λ a, Qred (Qabs a);
|}.

(** A comparison whose operands are array reads: [undefined] compares
    false with everything. *)
Definition compare {num : Type} (op : num → num → bool) (a b : option num) : bool :=
  match a, b with
  | Some x, Some y => op x y
  | _, _ => false
  end.

(** [arr.slice(start, end)] for indices that are not negative. *)
Definition slice {A : Type} (start end_ : nat) (arr : list A) : list A :=
  take (end_ - start) (drop start arr).

End JsNum.

Import JsNum.
Local Open Scope js_scope.

(** ** Shared types ([types.ts] is known through its uses) *)

Record Candle (num : Type) := mkCandle {
  time : num;
  close : num;
  volume : num;
}.
Arguments mkCandle {num} _ _ _.
Arguments time {num} _.
Arguments close {num} _.
Arguments volume {num} _.

(** ** utils/mockData.ts: the candle generator *)

Module MockData.

Section generateCandles.
Context {num : Type} `{!JsNumber num} `{!JsMath num}.

(** The successive results of [Math.random()], numbered from 0, and the
    result of [Date.now()]. *)
Variable random : nat → num.
Variable now : num.

(** What the loop carries: the number of random draws made so far, the
    current price and the candles pushed so far. *)
Record Walk := mkWalk {
  draws : nat;
  currentPrice : num;
  candles : list (Candle num);
}.

(** One round of the loop, for index [i]. *)
Definition walk_step (count : nat) (i : nat) (w : Walk) : Walk :=
  (* Create a more realistic random walk with some drift *)
  let volatility := of_decimal (Qmake 3 100) in
  let drift := (random (draws w) ⊖ of_decimal (Qmake 49 100)) ⊗ of_decimal (Qmake 5 1000) in
  let changePercent :=
    (random (draws w + 1) ⊖ of_decimal (Qmake 5 10)) ⊗ volatility ⊕ drift in
  let changeAmount := currentPrice w ⊗ changePercent in
  let currentPrice := currentPrice w ⊕ changeAmount in
  let currentPrice := if num_lt currentPrice (of_Z 50) then of_Z 50 else currentPrice in
  let surge := num_gt (num_abs changePercent) (volatility ⊗ of_decimal (Qmake 7 10)) in
  let volume :=
    num_floor (random (draws w + 2) ⊗ of_Z 500000) ⊕ of_Z 100000
    ⊕ (if surge then random (draws w + 3) ⊗ of_Z 700000 else of_Z 0) in
  {| draws := draws w + (if surge then 4 else 3);
     currentPrice := currentPrice;
     candles :=
       candles w ++
       [{| time := now ⊖ (of_nat count ⊖ of_nat i ⊖ of_Z 1) ⊗ of_Z 15 ⊗ of_Z 60 ⊗ of_Z 1000;
           close := toFixed2 currentPrice;
           volume := num_floor volume |}] |}.

(** [generateCandles(count, initialPrice)], [draws] random numbers having
    been drawn before the loop. *)
Definition generateCandles_from (count : nat) (initialPrice : num) (draws : nat)
    : list (Candle num) :=
  candles (for_loop 0 count (walk_step count)
             {| draws := draws; currentPrice := initialPrice; candles := [] |}).

(** [generateCandles()]: the defaults are [count = 100] and a random
    initial price, drawn first. *)
Definition generateCandles : list (Candle num) :=
  generateCandles_from 100 (random 0 ⊗ of_Z 2500 ⊕ of_Z 500) 1.

End generateCandles.

End MockData.

(** ** services/geminiService.ts: the indicator functions *)

Module GeminiService.

Record MACDResult (num : Type) := mkMACD {
  macdLine : num;
  signalLine : num;
  histogram : num;
}.
Arguments mkMACD {num} _ _ _.
Arguments macdLine {num} _.
Arguments signalLine {num} _.
Arguments histogram {num} _.

Section indicators.
Context {num : Type} `{!JsNumber num}.

(** Periods are lookback counts: natural numbers (the callers pass 12, 26,
    9 and 14).  [emaArray.push(x)] is [emaArray ++ [x]]. *)
Definition calculateEMA (prices : list num) (period : nat) : list num :=
  if length prices <? period then [] else
  let k := of_Z 2 ⊘ (of_nat period ⊕ of_Z 1) in
  let emaArray : list num := [] in
  (* First EMA is a simple moving average *)
  let sum := for_loop 0 period (λ i sum, sum ⊕ get prices i) (of_Z 0) in
  let emaArray := emaArray ++ [sum ⊘ of_nat period] in
  (* Subsequent EMAs *)
  for_loop period (length prices)
    (λ i emaArray,
       let newEma := (get prices i ⊗ k) ⊕ (get_last emaArray ⊗ (of_Z 1 ⊖ k)) in
       emaArray ++ [newEma])
    emaArray.

(** The source defaults are [fastPeriod = 12], [slowPeriod = 26],
    [signalPeriod = 9].  An absent last element is [undefined]. *)
Definition calculateMACD (candles : list (Candle num))
    (fastPeriod slowPeriod signalPeriod : nat) : option (MACDResult num) :=
  let prices := close <$> candles in
  if length prices <? slowPeriod + signalPeriod then None else
  let emaFast := calculateEMA prices fastPeriod in
  let emaSlow := calculateEMA prices slowPeriod in
  (* Align arrays and calculate MACD line *)
  let macdLineValues :=
    imap (λ index val, val ⊖ get emaSlow index)
         (slice_from (Z.of_nat slowPeriod - Z.of_nat fastPeriod) emaFast) in
  if length macdLineValues <? signalPeriod then None else
  let signalLineValues := calculateEMA macdLineValues signalPeriod in
  match last macdLineValues, last signalLineValues with
  | Some lastMacdLine, Some lastSignalLine =>
      let histogram := lastMacdLine ⊖ lastSignalLine in
      Some {| macdLine := toFixed2 lastMacdLine;
              signalLine := toFixed2 lastSignalLine;
              histogram := toFixed2 histogram |}
  | _, _ => None
  end.

(** The source default is [period = 14]. *)
Definition calculateRSI (candles : list (Candle num)) (period : nat) : option num :=
  if length candles <=? period then None else
  let prices := close <$> candles in
  (* Calculate initial average gain and loss *)
  let '(gains, losses) :=
    for_loop 1 (period + 1)
      (λ i '(gains, losses),
         let change := get prices i ⊖ get prices (i - 1) in
         if num_gt change (of_Z 0) then (gains ⊕ change, losses)
         else (gains, losses ⊖ change))
      (of_Z 0, of_Z 0) in
  let avgGain := gains ⊘ of_nat period in
  let avgLoss := losses ⊘ of_nat period in
  (* Smooth the averages for the rest of the data *)
  let '(avgGain, avgLoss) :=
    for_loop (period + 1) (length prices)
      (λ i '(avgGain, avgLoss),
         let change := get prices i ⊖ get prices (i - 1) in
         let currentGain := if num_gt change (of_Z 0) then change else (of_Z 0) in
         let currentLoss := if num_lt change (of_Z 0) then num_neg change else (of_Z 0) in
         ((avgGain ⊗ (of_nat period ⊖ of_Z 1) ⊕ currentGain) ⊘ of_nat period,
          (avgLoss ⊗ (of_nat period ⊖ of_Z 1) ⊕ currentLoss) ⊘ of_nat period))
      (avgGain, avgLoss) in
  if num_seq avgLoss (of_Z 0) then Some (of_Z 100) else
  let rs := avgGain ⊘ avgLoss in
  let rsi := of_Z 100 ⊖ (of_Z 100 ⊘ (of_Z 1 ⊕ rs)) in
  Some (toFixed2 rsi).

End indicators.

(** *** Errors and their classification

    A [catch] clause receives whatever was thrown.  [Native cls message]
    is a value other than [null] and [undefined] whose [message] is a
    string or is missing ([undefined]); [cls] is the built-in class the
    code finds with [instanceof], [PlainError] standing for every other
    value.  [AIError] is the module's own class.  [Nullish] is [null] or
    [undefined] itself.  [OddMessage cls shown complaint] is a value whose
    [message] is neither a string nor missing: [shown] is the text
    [super(message)] stores for it, and [complaint] tells what
    [error.message?.toLowerCase()] does, nothing for the message [null]
    (the call is skipped), a [TypeError] otherwise (a number, a boolean
    or an object has no such method).  The messages of the [TypeError]s
    the engine raises differ between engines and are carried along
    ([complaint]).  Messages are ASCII. *)

Inductive ErrorClass := SyntaxError | TypeError | PlainError.

Inductive JsError :=
| Native (cls : ErrorClass) (message : option string)
| AIError (message : string) (userFriendlyMessage : string)
| Nullish (complaint : string)
| OddMessage (cls : ErrorClass) (shown : string) (complaint : option string).

(** [error.message] as [super(message)] takes it; it is not read on
    [null] and [undefined]. *)
Definition message (error : JsError) : option string :=
  match error with
  | Native _ m => m
  | AIError m _ => Some m
  | Nullish _ => None
  | OddMessage _ shown _ => Some shown
  end.

(** [new AIError(message, userFriendlyMessage)]: [super(message)] turns a
    missing message into the empty string. *)
Definition new_AIError (message : option string) (userFriendlyMessage : string)
    : JsError :=
  AIError (default EmptyString message) userFriendlyMessage.

Definition instanceof (error : JsError) (cls : ErrorClass) : bool :=
  match error, cls with
  | Native SyntaxError _, SyntaxError => true
  | Native TypeError _, TypeError => true
  | OddMessage SyntaxError _ _, SyntaxError => true
  | OddMessage TypeError _ _, TypeError => true
  | _, _ => false
  end.

(** [String.prototype.toLowerCase] on ASCII text. *)
Definition lower_ascii (c : ascii) : ascii :=
  let n := nat_of_ascii c in
  if (65 <=? n) && (n <=? 90) then ascii_of_nat (n + 32) else c.

Fixpoint toLowerCase (s : string) : string :=
  match s with
  | EmptyString => EmptyString
  | String c rest => String (lower_ascii c) (toLowerCase rest)
  end.

(** [s.includes(sub)]. *)
Fixpoint includes (s sub : string) : bool :=
  if String.prefix sub s then true else
  match s with
  | EmptyString => false
  | String _ rest => includes rest sub
  end.

Definition invalid_key_message :=
  "Invalid API Key. Please ensure it is set correctly.".
Definition rate_limit_message :=
  "API rate limit reached. Please wait and try again.".
Definition network_message :=
  "Network error. Please check your internet connection.".
Definition unexpected_message :=
  "An unexpected error occurred with the AI service.".
Definition invalid_format_message :=
  "AI returned an invalid response format. Please try refreshing.".

(** [error.message?.toLowerCase() || '']: the lower-cased text ([inr]),
    or the message of the [TypeError] raised instead ([inl]). *)
Definition lowered_message (error : JsError) : string + string :=
  match error with
  | Native _ m => inr (toLowerCase (default EmptyString m))
  | AIError m _ => inr (toLowerCase m)
  | Nullish complaint => inl complaint
  | OddMessage _ _ (Some complaint) => inl complaint
  | OddMessage _ _ None => inr EmptyString
  end.

(** [handleApiError] never returns: the value below is what it throws,
    an [AIError] of its own, or the [TypeError] of its second line. *)
Definition handleApiError (error : JsError) : JsError :=
  match lowered_message error with
  | inl complaint => Native TypeError (Some complaint)
  | inr message_lc =>
      if includes message_lc "api key not valid" then
        new_AIError (message error) invalid_key_message
      else if includes message_lc "429" || includes message_lc "resource_exhausted" then
        new_AIError (message error) rate_limit_message
      else if instanceof error TypeError then (* Often indicates a network error *)
        new_AIError (message error) network_message
      else
        new_AIError (message error) unexpected_message
  end.

(** *** Reading the provider's answer in [getStockSignal] *)

Inductive Json :=
| JNull
| JBool (b : bool)
| JNumber (q : Q)
| JString (s : string)
| JArray (items : list Json)
| JObject (members : list (string * Json)).

(** [value.name] for [name] one of type, reason, news, on a value other
    than [null]: only objects have such a property, and a repeated key
    keeps its last value. *)
Definition property (value : Json) (name : string) : option Json :=
  match value with
  | JObject members => snd <$> last (filter (λ kv, bool_decide (kv.1 = name)) members)
  | _ => None
  end.

(** Truthiness of a property read ([None] is [undefined]). *)
Definition truthy (v : option Json) : bool :=
  match v with
  | None | Some JNull => false
  | Some (JBool b) => b
  | Some (JNumber q) => negb (Qeq_bool q 0)
  | Some (JString s) => negb (bool_decide (s = EmptyString))
  | Some (JArray _) | Some (JObject _) => true
  end.

Definition isArray (v : option Json) : bool :=
  match v with
  | Some (JArray _) => true
  | _ => false
  end.

(** [s.substring(start, end)]: both bounds are clamped to the string and
    swapped when out of order. *)
Definition substring (start end_ : Z) (s : string) : string :=
  let len := Z.of_nat (String.length s) in
  let clamp := λ z, Z.min (Z.max z 0) len in
  let lo := Z.min (clamp start) (clamp end_) in
  let hi := Z.max (clamp start) (clamp end_) in
  String.substring (Z.to_nat lo) (Z.to_nat (hi - lo)) s.

(** What [await ai.models.generateContent(...)] does. *)
Inductive GenerateContent :=
| Rejects (error : JsError)
| Responds (text : string).

Section getStockSignal.
(** Library and engine behaviour the function relies on:
    [String.prototype.trim], [JSON.parse] (a [SyntaxError] with its
    message, or the parsed value) and the message of the [TypeError]
    raised by a property read on [null]. *)
Variable trim : string → string.
Variable JSON_parse : string → string + Json.
Variable null_read_message : string.

Definition strip_fences (text : string) : string :=
  let jsonText := trim text in
  if String.prefix "```json" jsonText then
    trim (substring 7 (Z.of_nat (String.length jsonText) - 3) jsonText)
  else if String.prefix "```" jsonText then
    trim (substring 3 (Z.of_nat (String.length jsonText) - 3) jsonText)
  else jsonText.

(** The body of the [try] after the provider call: the value returned,
    or the error thrown. *)
Definition read_response (text : string) : JsError + Json :=
  match JSON_parse (strip_fences text) with
  | inl syntax_message => inl (Native SyntaxError (Some syntax_message))
  | inr JNull => inl (Native TypeError (Some null_read_message))
  | inr parsedJson =>
      if truthy (property parsedJson "type")
         && truthy (property parsedJson "reason")
         && isArray (property parsedJson "news")
      then inr parsedJson
      else inl (Native PlainError (Some "Invalid JSON structure received from AI."))
  end.

(** The [catch] clause. *)
Definition catch_clause (error : JsError) : JsError :=
  if instanceof error SyntaxError then
    new_AIError (message error) invalid_format_message
  else handleApiError error.

(** [getStockSignal] from the provider call onwards: [inr] is the signal
    returned, [inl] the error the promise rejects with. *)
Definition getStockSignal (response : GenerateContent) : JsError + Json :=
  let attempt :=
    match response with
    | Rejects error => inl error
    | Responds text => read_response text
    end in
  match attempt with
  | inl error => inl (catch_clause error)
  | inr parsedJson => inr parsedJson
  end.

End getStockSignal.

(** The five user-facing messages of [getStockSignal]. *)
Definition user_facing_messages : list string :=
  [invalid_key_message; rate_limit_message; network_message;
   invalid_format_message; unexpected_message].

(** The message V8 gives the [TypeError] of [parsedJson.type] on [null]. *)
Definition v8_null_read_message : string :=
  "Cannot read properties of null (reading 'type')".

(** A stand-in for [JSON.parse] that knows the literal [null] only, and a
    [trim] for text without surrounding whitespace; they serve to run
    [getStockSignal] on the response [null]. *)
Definition parse_null_literal (text : string) : string + Json :=
  if bool_decide (text = "null") then inr JNull
  else inl "Unexpected token".
Definition trim_nothing (text : string) : string := text.

End GeminiService.

(** ** components/SparklineChart.tsx: the chart's EMA *)

Module SparklineChart.

Section indicators.
Context {num : Type} `{!JsNumber num}.

Definition calculateEMA (prices : list num) (period : nat) : list num :=
  if length prices <? period then [] else
  let k := of_Z 2 ⊘ (of_nat period ⊕ of_Z 1) in
  let emaArray : list num := [] in
  (* First EMA is a simple moving average *)
  let sum := for_loop 0 period (λ i sum, sum ⊕ get prices i) (of_Z 0) in
  let emaArray := emaArray ++ [sum ⊘ of_nat period] in
  (* Subsequent EMAs *)
  for_loop period (length prices)
    (λ i emaArray,
       let newEma := (get prices i ⊗ k) ⊕ (get_last emaArray ⊗ (of_Z 1 ⊖ k)) in
       emaArray ++ [newEma])
    emaArray.

End indicators.

(** *** The series the chart draws *)

(** An entry of a [(number | null)[]] series; [Undefined] is what a read
    past the end of an array yields, and what fills the gap when an
    assignment extends an array. *)
Inductive Point (num : Type) := Null | Undefined | Value (y : num).
Arguments Null {num}.
Arguments Undefined {num}.
Arguments Value {num} _.

Record ChartSeries (num : Type) := mkSeries {
  buySignals : list (Point num);
  sellSignals : list (Point num);
  pointRadii : list num;
  paddedEma12 : list (Point num);
  paddedEma26 : list (Point num);
}.
Arguments mkSeries {num} _ _ _ _ _.
Arguments buySignals {num} _.
Arguments sellSignals {num} _.
Arguments pointRadii {num} _.
Arguments paddedEma12 {num} _.
Arguments paddedEma26 {num} _.

Section series.
Context {num : Type} `{!JsNumber num} `{!JsMath num}.

Definition calculateSMA (data : list num) (period : nat) : list num :=
  if length data <? period then [] else
  let sma : list num := [] in
  (* [i <= data.length - period], the difference not being negative here *)
  for_loop 0 (length data - period + 1)
    (λ i sma,
       let slice := slice i (i + period) data in
       let sum := foldl (λ a b, a ⊕ b) (of_Z 0) slice in
       sma ++ [sum ⊘ of_nat period])
    sma.

(** [arr[i]] as a value to store. *)
Definition read (arr : list num) (i : nat) : Point num :=
  match arr !! i with
  | Some y => Value y
  | None => Undefined
  end.

(** [arr[i] = v]: an index past the end extends the array. *)
Definition assign (i : nat) (v : Point num) (arr : list (Point num))
    : list (Point num) :=
  if i <? length arr then <[i := v]> arr
  else arr ++ replicate (i - length arr) Undefined ++ [v].

(** The MACD line and its signal line as the chart computes them. *)
Definition macdLine (prices : list num) : list num :=
  let ema12 := calculateEMA prices 12 in
  let ema26 := calculateEMA prices 26 in
  imap (λ index val, val ⊖ get ema26 index) (slice_from (26 - 12) ema12).

Definition signalLine (prices : list num) : list num :=
  calculateEMA (macdLine prices) 9.

(** One round of the crossover loop. *)
Definition mark_crossover (prices alignedMacdLine signalLine : list num)
    (i : nat) (marks : list (Point num) * list (Point num))
    : list (Point num) * list (Point num) :=
  let '(buySignals, sellSignals) := marks in
  let offset := 33 in
  let prevMacd := alignedMacdLine !! (i - 1) in
  let currMacd := alignedMacdLine !! i in
  let prevSignal := signalLine !! (i - 1) in
  let currSignal := signalLine !! i in
  let originalIndex := offset + i in
  let buySignals :=
    if compare num_le prevMacd prevSignal && compare num_gt currMacd currSignal
    then assign originalIndex (read prices originalIndex) buySignals
    else buySignals in
  let sellSignals :=
    if compare num_ge prevMacd prevSignal && compare num_lt currMacd currSignal
    then assign originalIndex (read prices originalIndex) sellSignals
    else sellSignals in
  (buySignals, sellSignals).

(** The callback of [pointRadii]'s [map]. *)
Definition point_radius (volumeSma : list num) (index : nat) (candle : Candle num)
    : num :=
  let smaIndex := (Z.of_nat index - 19)%Z in
  if (0 <=? smaIndex)%Z
     && compare num_gt (Some (volume candle))
          ((λ v, v ⊗ of_decimal (Qmake 175 100)) <$> volumeSma !! Z.to_nat smaIndex)
  then of_decimal (Qmake 25 10) (* Highlight high-volume points *)
  else of_Z 0.

(** The body of the chart's [useMemo]. *)
Definition chartSeries (candles : list (Candle num)) : ChartSeries num :=
  if length candles <? 35 then
    {| buySignals := []; sellSignals := []; pointRadii := [];
       paddedEma12 := []; paddedEma26 := [] |}
  else
  let prices := close <$> candles in
  let volumes := volume <$> candles in
  (* --- EMA Calculation for display --- *)
  let ema12 := calculateEMA prices 12 in
  let ema26 := calculateEMA prices 26 in
  let paddedEma12 := replicate 11 Null ++ (Value <$> ema12) in
  let paddedEma26 := replicate 25 Null ++ (Value <$> ema26) in
  (* --- MACD Calculation for signals --- *)
  let macdLine := macdLine prices in
  if length macdLine <? 9 then
    {| buySignals := []; sellSignals := []; pointRadii := [];
       paddedEma12 := paddedEma12; paddedEma26 := paddedEma26 |}
  else
  let signalLine := calculateEMA macdLine 9 in
  let alignedMacdLine := slice_from 8 macdLine in
  let buySignals : list (Point num) := replicate (length prices) Null in
  let sellSignals : list (Point num) := replicate (length prices) Null in
  let '(buySignals, sellSignals) :=
    for_loop 1 (length signalLine)
      (mark_crossover prices alignedMacdLine signalLine)
      (buySignals, sellSignals) in
  (* --- High Volume Calculation --- *)
  let volumeSma := calculateSMA volumes 20 in
  let pointRadii := imap (λ index candle, point_radius volumeSma index candle) candles in
  {| buySignals := buySignals; sellSignals := sellSignals; pointRadii := pointRadii;
     paddedEma12 := paddedEma12; paddedEma26 := paddedEma26 |}.

(** What the crossover loop keeps of a series of marks: its length, and
    that each entry is empty or the price at its own index, from index 34
    on. *)
Definition marks_ok (prices : list num) (marks : list (Point num)) : Prop :=
  length marks = length prices ∧
  ∀ j p, marks !! j = Some p →
    p = Null ∨ (34 ≤ j ∧ ∃ price, prices !! j = Some price ∧ p = Value price).

End series.

End SparklineChart.

(** ** utils/apiRateLimiter.ts: the shared call scheduler

    [App.tsx] imports [scheduleApiCall] from this module, whose source is
    not available; the limiter is described by the specification only. *)

Module ApiRateLimiter.

Section limiter.
Context {A : Type} `{!EqDecision A}.

(** The configured maximum number of actions in flight. *)
Variable maxConcurrent : nat.

(** Modelled from the spec: the source of [utils/apiRateLimiter.ts] is
    missing.  The limiter owns a queue of submitted actions and the
    actions it has dispatched that have not finished yet. *)
Record Limiter := mkLimiter {
  queue : list A;
  inFlight : list A;
}.

(** Modelled from the spec: a fresh limiter (the module is missing). *)
Definition idle : Limiter := {| queue := []; inFlight := [] |}.

(** Modelled from the spec: [scheduleApiCall] of the missing module; a
    submission joins the back of the queue. *)
Definition schedule (action : A) (l : Limiter) : Limiter :=
  {| queue := queue l ++ [action]; inFlight := inFlight l |}.

(** Modelled from the spec: dispatch in the missing module; when fewer
    than [maxConcurrent] actions are in flight the action at the front
    of the queue is admitted.  The minimum spacing between dispatches
    only delays this step, so it is left to the moment the step is
    taken. *)
Definition dispatch (l : Limiter) : option (A * Limiter) :=
  match queue l with
  | [] => None
  | action :: rest =>
      if length (inFlight l) <? maxConcurrent
      then Some (action, {| queue := rest; inFlight := inFlight l ++ [action] |})
      else None
  end.

(** Modelled from the spec: removal of one finished action from those in
    flight (bookkeeping of the missing module). *)
Fixpoint remove_first (action : A) (actions : list A) : list A :=
  match actions with
  | [] => []
  | a :: rest => if decide (a = action) then rest else a :: remove_first action rest
  end.

(** Modelled from the spec: completion or failure of an in-flight
    action frees its slot (the missing module's settle path). *)
Definition complete (action : A) (l : Limiter) : option Limiter :=
  if decide (action ∈ inFlight l)
  then Some {| queue := queue l; inFlight := remove_first action (inFlight l) |}
  else None.

(** Modelled from the spec: what can happen to the missing limiter. *)
Inductive Event :=
| Schedule (action : A)
| Dispatch
| Complete (action : A).

(** Modelled from the spec: a limiter of the missing module together
    with the record of what was submitted and what was admitted, each in
    order of occurrence. *)
Record Run := mkRun {
  limiter : Limiter;
  submitted : list A;
  dispatched : list A;
}.

(** Modelled from the spec: the start of a run of the missing limiter. *)
Definition start : Run := {| limiter := idle; submitted := []; dispatched := [] |}.

(** Modelled from the spec: one event of the missing limiter; [None]
    when the event cannot happen in this state. *)
Definition step (ev : Event) (r : Run) : option Run :=
  match ev with
  | Schedule action =>
      Some {| limiter := schedule action (limiter r);
              submitted := submitted r ++ [action];
              dispatched := dispatched r |}
  | Dispatch =>
      '(action, l) ← dispatch (limiter r);
      Some {| limiter := l;
              submitted := submitted r;
              dispatched := dispatched r ++ [action] |}
  | Complete action =>
      l ← complete action (limiter r);
      Some {| limiter := l; submitted := submitted r; dispatched := dispatched r |}
  end.

(** Modelled from the spec: a sequence of events of the missing
    limiter, oldest first. *)
Fixpoint run (evs : list Event) (r : Run) : option Run :=
  match evs with
  | [] => Some r
  | ev :: rest => r' ← step ev r; run rest r'
  end.

End limiter.

Arguments Limiter : clear implicits.
Arguments Event : clear implicits.
Arguments Run : clear implicits.

End ApiRateLimiter.

(** ** App.tsx: symbol machines, heartbeat, sentiment trigger *)

Module App.

Inductive ConnectionStatus := OFFLINE | ONLINE | REFRESHING.

Inductive SignalType := BUY | SELL | HOLD.

Record NewsItem := mkNews { title : string; uri : string }.

Record Signal := mkSignal {
  type : SignalType;
  reason : string;
  news : list NewsItem;
}.

Inductive Role := user | model.

Record ChatMessage := mkChat {
  role : Role;
  text : string;
  isLoading : bool;
  chat_error : bool;
}.

Record StockState (num : Type) := mkStock {
  symbol : string;
  candles : list (Candle num);
  signal : option Signal;
  countdown : Z;
  status : ConnectionStatus;
  chatHistory : list ChatMessage;
  error : option string;
}.
Arguments mkStock {num} _ _ _ _ _ _ _.
Arguments symbol {num} _.
Arguments candles {num} _.
Arguments signal {num} _.
Arguments countdown {num} _.
Arguments status {num} _.
Arguments chatHistory {num} _.
Arguments error {num} _.

#[global] Instance ConnectionStatus_eq_dec : EqDecision ConnectionStatus.
Proof. solve_decision. Defined.
#[global] Instance SignalType_eq_dec : EqDecision SignalType.
Proof. solve_decision. Defined.

(** What the component hands to [scheduleApiCall]. *)
Inductive ApiCall :=
| FetchSignal (symbol : string)
| GetMarketSentiment (signals : gmap string SignalType).

#[global] Instance ApiCall_eq_dec : EqDecision ApiCall.
Proof. solve_decision. Defined.

Section app.
Context {num : Type}.

(** [constants.ts] is not among the sources: the tracked symbols and the
    refresh interval are parameters. *)
Variable STOCKS : list string.
Variable REFRESH_INTERVAL_SECONDS : Z.

(** The initial value of [stockData]. *)
Definition initialState : gmap string (StockState num) :=
  foldl (λ initialState symbol,
           <[symbol := {| symbol := symbol;
                          candles := [];
                          signal := None;
                          countdown := REFRESH_INTERVAL_SECONDS;
                          status := OFFLINE;
                          chatHistory := [];
                          error := None |}]> initialState)
        ∅ STOCKS.

Definition isRefreshingAll (stockData : gmap string (StockState num)) : bool :=
  existsb (λ s, bool_decide (status s = REFRESHING)) (map_to_list stockData).*2.

(** *** [fetchSignal]

    The three [setStockData] updaters of [fetchSignal].  Each rebuilds
    the entry of [symbol] from [prev[symbol]]; every caller passes a key
    of the store (an element of [STOCKS] or a key read from the store),
    and the embedding is for such symbols: on another key [alter]
    leaves the store as it is, where the source would add an entry that
    holds only the fields the updater writes. *)

(** [{ ...prev[symbol], status: REFRESHING, error: null }] *)
Definition refreshing_entry (s : StockState num) : StockState num :=
  {| symbol := symbol s;
     candles := candles s;
     signal := signal s;
     countdown := countdown s;
     status := REFRESHING;
     chatHistory := chatHistory s;
     error := None |}.

Definition fetchSignal_begin (symbol : string)
    (prev : gmap string (StockState num)) : gmap string (StockState num) :=
  alter refreshing_entry symbol prev.

(** [{ ...prev[symbol], candles: newCandles, signal, status: ONLINE,
       countdown: REFRESH_INTERVAL_SECONDS, error: null }] *)
Definition online_entry (newCandles : list (Candle num)) (signal : Signal)
    (s : StockState num) : StockState num :=
  {| symbol := symbol s;
     candles := newCandles;
     signal := Some signal;
     countdown := REFRESH_INTERVAL_SECONDS;
     status := ONLINE;
     chatHistory := chatHistory s;
     error := None |}.

Definition fetchSignal_resolved (symbol : string)
    (newCandles : list (Candle num)) (signal : Signal)
    (prev : gmap string (StockState num)) : gmap string (StockState num) :=
  alter (online_entry newCandles signal) symbol prev.

Definition userMessage (error : GeminiService.JsError) : string :=
  match error with
  | GeminiService.AIError _ userFriendlyMessage => userFriendlyMessage
  | _ => "An unknown error occurred."
  end.

(** [{ ...prev[symbol], status: OFFLINE,
       countdown: REFRESH_INTERVAL_SECONDS, error: userMessage }] *)
Definition offline_entry (error : GeminiService.JsError)
    (s : StockState num) : StockState num :=
  {| symbol := symbol s;
     candles := candles s;
     signal := signal s;
     countdown := REFRESH_INTERVAL_SECONDS;
     status := OFFLINE;
     chatHistory := chatHistory s;
     error := Some (userMessage error) |}.

Definition fetchSignal_rejected (symbol : string)
    (error : GeminiService.JsError)
    (prev : gmap string (StockState num)) : gmap string (StockState num) :=
  alter (offline_entry error) symbol prev.

(** The continuation of [fetchSignal] once [getStockSignal] settles. *)
Definition fetchSignal_settled (symbol : string)
    (newCandles : list (Candle num))
    (result : GeminiService.JsError + Signal)
    (prev : gmap string (StockState num)) : gmap string (StockState num) :=
  match result with
  | inr signal => fetchSignal_resolved symbol newCandles signal prev
  | inl error => fetchSignal_rejected symbol error prev
  end.

(** [handleRefreshAll]: the calls handed to the scheduler, in order. *)
Definition handleRefreshAll : list ApiCall := FetchSignal <$> STOCKS.

(** *** The heartbeat

    The body of the [setInterval] callback, the updater being run when
    [setStockData] is called.  It visits every key of the store once; the
    order of the visit (that of the JS object's keys) only fixes the order
    of [symbolsToFetch], which is taken here from [map_to_list].  The
    countdown holds whole seconds.

    [symbolsToFetch] is filled by the updater and read after
    [setStockData] has returned.  React may run the updater inside that
    call or queue it for the next render; [tick] is the first case, and in
    the second the store changes as [(tick prevData).1] while the array
    is still empty when its length is tested. *)

Definition tick_entry (s : StockState num) : StockState num :=
  match status s with
  | ONLINE =>
      let newCountdown := (countdown s - 1)%Z in
      if (newCountdown <=? 0)%Z then
        {| symbol := symbol s; candles := candles s; signal := signal s;
           countdown := 0; status := REFRESHING;
           chatHistory := chatHistory s; error := error s |}
      else
        {| symbol := symbol s; candles := candles s; signal := signal s;
           countdown := newCountdown; status := status s;
           chatHistory := chatHistory s; error := error s |}
  | _ => s
  end.

Definition tick_due (s : StockState num) : bool :=
  bool_decide (status s = ONLINE) && (countdown s - 1 <=? 0)%Z.

Definition tick (prevData : gmap string (StockState num))
    : gmap string (StockState num) * list ApiCall :=
  let symbolsToFetch := (filter (λ kv, tick_due kv.2) (map_to_list prevData)).*1 in
  (tick_entry <$> prevData, FetchSignal <$> symbolsToFetch).

(** *** The sentiment trigger

    The body of the debounce timer's callback up to the call handed to
    the scheduler.  [count > STOCKS.length / 2] compares an integer with
    half an integer: it is [STOCKS.length < 2 * count]. *)

(** The callback of [reduce]: [acc[s.symbol] = s.signal!.type]. *)
Definition record_signal (acc : gmap string SignalType) (s : StockState num)
    : gmap string SignalType :=
  match signal s with
  | Some sg => <[symbol s := type sg]> acc
  | None => acc
  end.

Definition signalsForSentiment (stockData : gmap string (StockState num))
    : gmap string SignalType :=
  foldl record_signal ∅
        (filter (λ s, is_Some (signal s) ∧ status s = ONLINE)
                (map_to_list stockData).*2).

(** The symbols currently ONLINE with a signal, as the specification
    names the quorum. *)
Definition online_with_signal (stockData : gmap string (StockState num))
    : gmap string (StockState num) :=
  filter (λ kv, is_Some (signal kv.2) ∧ status kv.2 = ONLINE) stockData.

Definition sentimentTimeout (stockData : gmap string (StockState num))
    : list ApiCall :=
  let signalsForSentiment := signalsForSentiment stockData in
  if length STOCKS <? 2 * size signalsForSentiment
  then [GetMarketSentiment signalsForSentiment]
  else [].

(** *** [handleSendMessage]: each of its updaters replaces the chat
    transcript of one symbol. *)
Definition chat_entry (history : list ChatMessage)
    (s : StockState num) : StockState num :=
  {| symbol := symbol s; candles := candles s; signal := signal s;
     countdown := countdown s; status := status s;
     chatHistory := history; error := error s |}.

Definition setChatHistory (symbol : string) (history : list ChatMessage)
    (prev : gmap string (StockState num)) : gmap string (StockState num) :=
  alter (chat_entry history) symbol prev.

(** *** The running component

    The store together with the scheduler it feeds.  The limiter is the
    one of [ApiRateLimiter], with [maxConcurrent] slots. *)

Variable maxConcurrent : nat.

Record AppState := mkApp {
  stockData : gmap string (StockState num);
  calls : ApiRateLimiter.Limiter ApiCall;
}.

Inductive AppEvent :=
| ClickRefreshAll
| HeartbeatTick
| SentimentTimerFires
| LimiterDispatches
| SignalSettles (symbol : string) (newCandles : list (Candle num))
                (result : GeminiService.JsError + Signal)
| SentimentSettles (signals : gmap string SignalType)
| ChatUpdate (symbol : string) (history : list ChatMessage)
| HeartbeatTickLate.

Definition schedule_all (actions : list ApiCall)
    (l : ApiRateLimiter.Limiter ApiCall) : ApiRateLimiter.Limiter ApiCall :=
  foldl (λ l action, ApiRateLimiter.schedule action l) l actions.

(** After the first render: the mount effect has called
    [handleRefreshAll] once. *)
Definition mounted : AppState :=
  {| stockData := initialState;
     calls := schedule_all handleRefreshAll ApiRateLimiter.idle |}.

(** One event; [None] when it cannot happen: the button is disabled
    while [isRefreshingAll], the limiter admits only within its budget,
    and only a call in flight settles.  A heartbeat is [HeartbeatTick]
    when React ran its updater inside the call of [setStockData], and
    [HeartbeatTickLate] when the updater was queued and ran afterwards:
    the store is updated all the same, and nothing is scheduled. *)
Definition app_step (ev : AppEvent) (st : AppState) : option AppState :=
  match ev with
  | ClickRefreshAll =>
      if isRefreshingAll (stockData st) then None else
      Some {| stockData := stockData st;
              calls := schedule_all handleRefreshAll (calls st) |}
  | HeartbeatTick =>
      let '(newData, due) := tick (stockData st) in
      Some {| stockData := newData; calls := schedule_all due (calls st) |}
  | SentimentTimerFires =>
      Some {| stockData := stockData st;
              calls := schedule_all (sentimentTimeout (stockData st)) (calls st) |}
  | LimiterDispatches =>
      '(action, l) ← ApiRateLimiter.dispatch maxConcurrent (calls st);
      match action with
      | FetchSignal symbol =>
          Some {| stockData := fetchSignal_begin symbol (stockData st); calls := l |}
      | GetMarketSentiment _ =>
          Some {| stockData := stockData st; calls := l |}
      end
  | SignalSettles symbol newCandles result =>
      l ← ApiRateLimiter.complete (FetchSignal symbol) (calls st);
      Some {| stockData := fetchSignal_settled symbol newCandles result (stockData st);
              calls := l |}
  | SentimentSettles signals =>
      l ← ApiRateLimiter.complete (GetMarketSentiment signals) (calls st);
      Some {| stockData := stockData st; calls := l |}
  | ChatUpdate symbol history =>
      Some {| stockData := setChatHistory symbol history (stockData st);
              calls := calls st |}
  | HeartbeatTickLate =>
      Some {| stockData := (tick (stockData st)).1; calls := calls st |}
  end.

Fixpoint app_run (evs : list AppEvent) (st : AppState) : option AppState :=
  match evs with
  | [] => Some st
  | ev :: rest => st' ← app_step ev st; app_run rest st'
  end.

Definition reachable (st : AppState) : Prop :=
  ∃ evs, app_run evs mounted = Some st.

(** Invariants of the store are stated entry by entry. *)
Definition every_entry (P : string → StockState num → Prop)
    (stockData : gmap string (StockState num)) : Prop :=
  ∀ key s, stockData !! key = Some s → P key s.

(** Every entry sits under its own symbol. *)
Definition keyed_by_symbol : gmap string (StockState num) → Prop :=
  every_entry (λ key s, symbol s = key).

(** A machine that is ONLINE has at least one second left. *)
Definition online_has_time : gmap string (StockState num) → Prop :=
  every_entry (λ _ s, status s = ONLINE → (1 ≤ countdown s)%Z).

(** A property of entries that the updaters of the component keep. *)
Definition kept_by_updaters (P : string → StockState num → Prop) : Prop :=
  ∀ key s, P key s →
    P key (refreshing_entry s) ∧
    (∀ newCandles signal, P key (online_entry newCandles signal s)) ∧
    (∀ error, P key (offline_entry error s)) ∧
    (∀ history, P key (chat_entry history s)) ∧
    P key (tick_entry s).

(** The calls handed to the scheduler that have not settled yet: those
    waiting, then those in flight. *)
Definition pending (st : AppState) : list ApiCall :=
  ApiRateLimiter.queue (calls st) ++ ApiRateLimiter.inFlight (calls st).

(** The number of provider calls for [symbol] that are outstanding. *)
Definition refreshes_in_flight (symbol : string) (st : AppState) : nat :=
  length (filter (λ a, a = FetchSignal symbol) (ApiRateLimiter.inFlight (calls st))).

(** *** [handleSendMessage]

    The messages it builds, and its two halves around the provider call.
    [stockData] is the store the handler was rendered with. *)

Definition userChatMessage (message : string) : ChatMessage :=
  {| role := user; text := message; isLoading := false; chat_error := false |}.

Definition loadingMessage : ChatMessage :=
  {| role := model; text := EmptyString; isLoading := true; chat_error := false |}.

Definition modelChatMessage (responseText : string) : ChatMessage :=
  {| role := model; text := responseText; isLoading := false; chat_error := false |}.

Definition errorChatMessage (userMessage : string) : ChatMessage :=
  {| role := model; text := userMessage; isLoading := false; chat_error := true |}.

(** Up to the provider call: [None] when nothing happens because a chat
    is loading; otherwise the history handed to [getChatResponse] and the
    updater's result.  The symbol is one of the store (the open chat). *)
Definition handleSendMessage_begin (isChatLoading : bool) (symbol message : string)
    (stockData : gmap string (StockState num))
    : option (list ChatMessage * gmap string (StockState num)) :=
  if isChatLoading then None else
  s ← stockData !! symbol;
  let currentHistory := chatHistory s ++ [userChatMessage message] in
  Some (currentHistory,
        setChatHistory symbol (currentHistory ++ [loadingMessage]) stockData).

(** Once [getChatResponse] settles. *)
Definition handleSendMessage_settled (symbol : string)
    (currentHistory : list ChatMessage) (result : GeminiService.JsError + string)
    (prev : gmap string (StockState num)) : gmap string (StockState num) :=
  match result with
  | inr responseText =>
      setChatHistory symbol (currentHistory ++ [modelChatMessage responseText]) prev
  | inl error =>
      setChatHistory symbol (currentHistory ++ [errorChatMessage (userMessage error)]) prev
  end.

End app.

Arguments AppState : clear implicits.
Arguments AppEvent : clear implicits.

End App.

(** ** services/geminiService.ts: the chat and sentiment calls *)

Module GeminiCalls.

Import GeminiService.

(** [getChatResponse] from the provider call onwards. *)
Definition getChatResponse (response : GenerateContent) : JsError + string :=
  match response with
  | Responds text => inr text
  | Rejects error => inl (handleApiError error)
  end.

Definition signalType_text (type : App.SignalType) : string :=
  match type with
  | App.BUY => "BUY"
  | App.SELL => "SELL"
  | App.HOLD => "HOLD"
  end.

(** [parts.join(', ')]. *)
Fixpoint join (parts : list string) : string :=
  match parts with
  | [] => EmptyString
  | [part] => part
  | part :: rest => part +:+ ", " +:+ join rest
  end.

(** [Object.entries(signals).map(...).join(', ')].  The object [signals]
    is given by its entries in the order [Object.entries] lists them. *)
Definition signalSummary (signals : list (string * App.SignalType)) : string :=
  join ((λ '(symbol, type), symbol +:+ ": " +:+ signalType_text type) <$> signals).

Definition awaiting_message : string :=
  "Awaiting sufficient data to determine market sentiment.".

Definition sentiment_prompt (signalSummary : string) : string :=
  "
            You are an expert AI financial market analyst for the Indian stock market (NSE).
            Based on the following list of real-time trading signals for key stocks, provide a concise, one or two-sentence summary of the overall market sentiment.
            Do not just list the counts of BUY/SELL signals. Instead, synthesize the information into a coherent narrative. For example, mention if a particular sector seems strong or weak if you can infer it.

            Signals: " +:+ signalSummary +:+ "
        ".

(** [getMarketSentiment]; [generateContent] is the provider, asked with a
    prompt. *)
Definition getMarketSentiment (generateContent : string → GenerateContent)
    (signals : list (string * App.SignalType)) : JsError + string :=
  let signalSummary := signalSummary signals in
  if bool_decide (signalSummary = EmptyString) then inr awaiting_message else
  let prompt := sentiment_prompt signalSummary in
  match generateContent prompt with
  | Responds text => inr text
  | Rejects error => inl (handleApiError error)
  end.

(** The candles whose closing prices the prompt of [getStockSignal] lists:
    [candles.slice(-50)]. *)
Definition promptCandles {num : Type} (candles : list (Candle num))
    : list (Candle num) :=
  slice_from (-50) candles.

End GeminiCalls.

(** ** components/StockCard.tsx: what a card shows *)

Module StockCard.

(** Truthiness of [error]: [null] and the empty string are falsy. *)
Definition truthy_text (error : option string) : bool :=
  match error with
  | None => false
  | Some message => negb (bool_decide (message = EmptyString))
  end.

(** The alternatives of the news section of a card. *)
Inductive NewsSection :=
| DataUnavailable (error : string)
| Headlines (items : list App.NewsItem)
| LoadingSkeleton
| NoRecentNews
| NothingShown.

Section card.
Context {num : Type}.

(** [signal && !error]: the signal label and its tooltip are shown. *)
Definition showsSignal (stockState : App.StockState num) : bool :=
  bool_decide (is_Some (App.signal stockState))
  && negb (truthy_text (App.error stockState)).

(** The [disabled] attribute of the Ask AI button: [!signal || !!error]. *)
Definition askAiDisabled (stockState : App.StockState num) : bool :=
  negb (bool_decide (is_Some (App.signal stockState)))
  || truthy_text (App.error stockState).

Definition newsSection (stockState : App.StockState num) : NewsSection :=
  let status := App.status stockState in
  let signal := App.signal stockState in
  let error := App.error stockState in
  if bool_decide (status = App.OFFLINE) && truthy_text error then
    DataUnavailable (default EmptyString error)
  else
    match signal with
    | Some sg =>
        if 0 <? length (App.news sg) then Headlines (slice 0 3 (App.news sg))
        else NoRecentNews
    | None =>
        if negb (bool_decide (status = App.OFFLINE)) then LoadingSkeleton
        else NothingShown
    end.

End card.

End StockCard.

(** ** The indicators as the specification words them

    Reference definitions over sequences, without indices, against which the
    loops of the source are compared. *)

Module IndicatorSpec.

Section reference.
Context {num : Type} `{!JsNumber num}.

(** The smoothing factor [k = 2/(period+1)]. *)
Definition smoothing (period : nat) : num :=
  of_Z 2 ⊘ (of_nat period ⊕ of_Z 1).

(** Arithmetic mean of the samples, summed from the left. *)
Definition mean (samples : list num) : num :=
  foldl num_add (of_Z 0) samples ⊘ of_nat (length samples).

(** [ema[i] = price[i]*k + ema[i-1]*(1-k)], from the seed onwards. *)
Fixpoint ema_from (k ema : num) (rest : list num) : list num :=
  ema :: match rest with
         | [] => []
         | price :: rest' => ema_from k (price ⊗ k ⊕ ema ⊗ (of_Z 1 ⊖ k)) rest'
         end.

(** The deltas of a series: [series[i+1] - series[i]]. *)
Definition deltas (series : list num) : list num :=
  zip_with (λ previous current, current ⊖ previous) series (tail series).

(** Gains and losses summed separately over the deltas, losses as
    positive magnitudes, then averaged over the period. *)
Definition initial_averages (period : nat) (ds : list num) : num * num :=
  let '(gains, losses) :=
    foldl (λ '(gains, losses) d,
             if num_gt d (of_Z 0) then (gains ⊕ d, losses)
             else (gains, losses ⊖ d))
          (of_Z 0, of_Z 0) ds in
  (gains ⊘ of_nat period, losses ⊘ of_nat period).

(** Wilder smoothing: [avg = (avg*(period-1) + current)/period]. *)
Definition wilder (period : nat) (avgs : num * num) (d : num) : num * num :=
  let '(avgGain, avgLoss) := avgs in
  let currentGain := if num_gt d (of_Z 0) then d else of_Z 0 in
  let currentLoss := if num_lt d (of_Z 0) then num_neg d else of_Z 0 in
  ((avgGain ⊗ (of_nat period ⊖ of_Z 1) ⊕ currentGain) ⊘ of_nat period,
   (avgLoss ⊗ (of_nat period ⊖ of_Z 1) ⊕ currentLoss) ⊘ of_nat period).

(** [100] when the average loss is zero, else
    [100 - 100/(1 + avgGain/avgLoss)] rounded to two decimals. *)
Definition rsi_value (avgs : num * num) : num :=
  let '(avgGain, avgLoss) := avgs in
  if num_seq avgLoss (of_Z 0) then of_Z 100
  else toFixed2 (of_Z 100 ⊖ (of_Z 100 ⊘ (of_Z 1 ⊕ avgGain ⊘ avgLoss))).

End reference.

End IndicatorSpec.

(** ** Sample data used to run the definitions *)

Module Samples.

Definition candle (price : Z) : Candle Q :=
  {| time := inject_Z 0; close := inject_Z price; volume := inject_Z 0 |}.

(** A rising series [1, 2, ..., n]. *)
Definition rising (n : nat) : list (Candle Q) := candle <$> seqZ 1 (Z.of_nat n).

Definition buy : App.Signal :=
  {| App.type := App.BUY; App.reason := "momentum"; App.news := [] |}.

(** A configuration: two symbols, a refresh every 3 seconds, a limiter
    with 3 slots. *)
Definition symbols : list string := ["TCS"; "INFY"].
Definition interval : Z := 3.
Definition slots : nat := 3.

(** The state the component is in after [evs], if they can happen. *)
Definition state_after (evs : list (App.AppEvent Q)) : App.AppState Q :=
  default (App.mounted symbols interval)
          (App.app_run symbols interval slots evs (App.mounted symbols interval)).

(** Both refreshes of the mount are admitted and succeed; two ticks
    later every countdown stands at 1. *)
Definition one_second_left : list (App.AppEvent Q) :=
  [App.LimiterDispatches; App.LimiterDispatches;
   App.SignalSettles "TCS" [candle 100] (inr buy);
   App.SignalSettles "INFY" [candle 200] (inr buy);
   App.HeartbeatTick; App.HeartbeatTick].

(** The same, followed by a third heartbeat whose updater ran after its
    [setStockData] had returned: both machines are due on it. *)
Definition late_third_tick : list (App.AppEvent Q) :=
  one_second_left ++ [App.HeartbeatTickLate].

(** The refresh of TCS succeeds before that of INFY is admitted; the
    button is enabled and pressed; the limiter then admits the waiting
    refresh of INFY and the new one of TCS. *)
Definition pressed_between_dispatches : list (App.AppEvent Q) :=
  [App.LimiterDispatches;
   App.SignalSettles "TCS" [candle 100] (inr buy);
   App.ClickRefreshAll;
   App.LimiterDispatches;
   App.LimiterDispatches].

(** A run of a limiter with two slots over numbered actions. *)
Definition limiter_events : list (ApiRateLimiter.Event nat) :=
  [ApiRateLimiter.Schedule 1; ApiRateLimiter.Schedule 2; ApiRateLimiter.Schedule 3;
   ApiRateLimiter.Dispatch; ApiRateLimiter.Dispatch;
   ApiRateLimiter.Complete 1; ApiRateLimiter.Dispatch].

End Samples.

(** * Properties *)

(** ** The definitions at work *)

Example ema_of_four_samples :
  GeminiService.calculateEMA [1#1; 2#1; 3#1; 4#1]%Q 2 = [3#2; 5#2; 7#2]%Q.
Proof. vm_compute. reflexivity. Qed.

Example macd_needs_35_candles :
  GeminiService.calculateMACD (Samples.rising 34) 12 26 9 = None ∧
  GeminiService.calculateMACD (Samples.rising 35) 12 26 9
  = Some (GeminiService.mkMACD (7#1) (7#1) (0#1))%Q.
Proof. split; vm_compute; reflexivity. Qed.

Example rsi_of_rising_series :
  GeminiService.calculateRSI (Samples.rising 14) 14 = None ∧
  GeminiService.calculateRSI (Samples.rising 15) 14 = Some (100#1)%Q.
Proof. split; vm_compute; reflexivity. Qed.

Example rate_limit_wins_over_network :
  GeminiService.handleApiError
    (GeminiService.Native GeminiService.TypeError (Some "HTTP 429 Too Many Requests"))
  = GeminiService.AIError "HTTP 429 Too Many Requests"
      GeminiService.rate_limit_message.
Proof. reflexivity. Qed.


(** ** Loops over arrays *)

Section loops.
Context {num : Type} `{!JsNumber num}.

(** A counted loop whose body reads one element per round is a fold over
    the slice it walks; [off] is the distance between the loop index and
    the index read. *)
Lemma for_loop_slice {St B : Type} (l : list B) (body : nat → St → St)
    (F : St → B → St) (off a n : nat) (s : St) :
  (∀ i x acc, l !! i = Some x → a ≤ i < a + n → body (off + i) acc = F acc x) →
  a + n ≤ length l →
  foldl (λ acc i, body i acc) s (seq (off + a) n) = foldl F s (take n (drop a l)).
Proof.
  revert a s. induction n as [|n IH]; intros a s Hbody Hlen; [done|].
  destruct (lookup_lt_is_Some_2 l a) as [x Hx]; [lia|].
  rewrite (drop_S l x a Hx). cbn [seq foldl take].
  rewrite (Hbody a x s Hx) by lia.
  replace (S (off + a)) with (off + S a) by lia.
  apply IH; [|lia]. intros i y acc Hy Hi. apply Hbody; [done|lia].
Qed.

Lemma get_lookup (l : list num) (i : nat) (x : num) :
  l !! i = Some x → get l i = x.
Proof. unfold get. by intros ->. Qed.

Lemma get_last_snoc (l : list num) (x : num) : get_last (l ++ [x]) = x.
Proof. unfold get_last. by rewrite last_snoc. Qed.

(** The summing loop of [calculateEMA]. *)
Lemma sum_loop (prices : list num) (period : nat) :
  period ≤ length prices →
  for_loop 0 period (λ i sum, sum ⊕ get prices i) (of_Z 0)
  = foldl num_add (of_Z 0) (take period prices).
Proof.
  intros Hlen. unfold for_loop. rewrite Nat.sub_0_r.
  rewrite (for_loop_slice prices (λ i sum, sum ⊕ get prices i) num_add 0 0 period);
    [by rewrite drop_0| |lia].
  intros i x acc Hx _. cbn. by rewrite (get_lookup _ _ _ Hx).
Qed.

(** The pushing loop of [calculateEMA]. *)
Lemma ema_loop (prices : list num) (k : num) (a n : nat) (pre : list num) (e : num) :
  a + n ≤ length prices →
  foldl (λ emaArray i,
           emaArray ++ [get prices i ⊗ k ⊕ get_last emaArray ⊗ (of_Z 1 ⊖ k)])
        (pre ++ [e]) (seq a n)
  = pre ++ IndicatorSpec.ema_from k e (take n (drop a prices)).
Proof.
  revert a pre e. induction n as [|n IH]; intros a pre e Hlen; [done|].
  destruct (lookup_lt_is_Some_2 prices a) as [x Hx]; [lia|].
  rewrite (drop_S prices x a Hx). cbn [seq foldl take IndicatorSpec.ema_from].
  rewrite get_last_snoc, (get_lookup _ _ _ Hx).
  rewrite (IH (S a) (pre ++ [e])) by lia.
  by rewrite <- app_assoc.
Qed.

Lemma length_ema_from (k e : num) (rest : list num) :
  length (IndicatorSpec.ema_from k e rest) = S (length rest).
Proof. revert e. induction rest as [|x rest IH]; intros e; cbn; [done|]. by rewrite IH. Qed.

Lemma ema_from_step (k e : num) (rest : list num) (i : nat) (x y : num) :
  IndicatorSpec.ema_from k e rest !! i = Some y →
  rest !! i = Some x →
  IndicatorSpec.ema_from k e rest !! S i = Some (x ⊗ k ⊕ y ⊗ (of_Z 1 ⊖ k)).
Proof.
  revert e i. induction rest as [|p rest IH]; intros e i Hy Hx; [done|].
  destruct i as [|i]; cbn in *.
  - simplify_eq. by destruct rest.
  - by apply IH.
Qed.

(** [calculateEMA] without its loops. *)
Lemma calculateEMA_unfold (prices : list num) (period : nat) :
  period ≤ length prices →
  GeminiService.calculateEMA prices period
  = IndicatorSpec.ema_from (IndicatorSpec.smoothing period)
      (IndicatorSpec.mean (take period prices)) (drop period prices).
Proof.
  intros Hlen. unfold GeminiService.calculateEMA.
  destruct (Nat.ltb_spec (length prices) period) as [?|_]; [lia|].
  cbv zeta. rewrite sum_loop by done. unfold for_loop.
  rewrite (ema_loop prices _ period (length prices - period) []) by lia.
  cbn [app]. unfold IndicatorSpec.mean, IndicatorSpec.smoothing.
  rewrite length_take, Nat.min_l by done.
  by rewrite (take_ge (drop period prices)) by (rewrite length_drop; lia).
Qed.

Lemma length_calculateEMA (prices : list num) (period : nat) :
  period ≤ length prices →
  length (GeminiService.calculateEMA prices period) = length prices - period + 1.
Proof.
  intros Hlen. rewrite calculateEMA_unfold by done.
  rewrite length_ema_from, length_drop. lia.
Qed.

End loops.

(** ** The exponential moving average *)

(** C5.  [calculateEMA] returns the empty sequence when the series is
    shorter than the period.  Otherwise the result has
    [len(series) - period + 1] elements, its first element is the arithmetic
    mean of the first [period] samples, and at every later price index [i]
    the value aligned with [price[i]] is [price[i]*k + previous*(1-k)] with
    [k = 2/(period+1)], so the values are produced from left to right. *)
Theorem calculateEMA_spec {num : Type} `{!JsNumber num}
    (prices : list num) (period : nat) :
  let k := IndicatorSpec.smoothing period in
  let ema := GeminiService.calculateEMA prices period in
  (length prices < period → ema = []) ∧
  (period ≤ length prices →
     length ema = length prices - period + 1 ∧
     ema !! 0 = Some (IndicatorSpec.mean (take period prices)) ∧
     ∀ i, period ≤ i < length prices →
       ∃ price previous,
         prices !! i = Some price ∧
         ema !! (i - period) = Some previous ∧
         ema !! (i - period + 1) = Some (price ⊗ k ⊕ previous ⊗ (of_Z 1 ⊖ k))).
Proof.
  cbv zeta. split.
  - intros Hshort. unfold GeminiService.calculateEMA.
    by destruct (Nat.ltb_spec (length prices) period) as [_|?]; [|lia].
  - intros Hlen. split; [by apply length_calculateEMA|].
    rewrite calculateEMA_unfold by done. split.
    + by destruct (drop period prices).
    + intros i [Hlo Hhi].
      destruct (lookup_lt_is_Some_2 prices i Hhi) as [price Hprice].
      destruct (lookup_lt_is_Some_2
                  (IndicatorSpec.ema_from (IndicatorSpec.smoothing period)
                     (IndicatorSpec.mean (take period prices)) (drop period prices))
                  (i - period)) as [previous Hprev].
      { rewrite length_ema_from, length_drop. lia. }
      exists price, previous. split_and!; [done..|].
      rewrite Nat.add_1_r. apply ema_from_step; [done|].
      rewrite lookup_drop. by replace (period + (i - period)) with i by lia.
Qed.

Lemma calculateEMA_spec_witness :
  GeminiService.calculateEMA [1#1; 2#1]%Q 3 = [] ∧
  length (GeminiService.calculateEMA [1#1; 2#1; 3#1; 4#1]%Q 2) = 3 ∧
  GeminiService.calculateEMA [1#1; 2#1; 3#1; 4#1]%Q 2 !! 0 = Some (3#2)%Q.
Proof.
  split.
  - apply (calculateEMA_spec [1#1; 2#1]%Q 3). simpl. lia.
  - destruct (calculateEMA_spec [1#1; 2#1; 3#1; 4#1]%Q 2) as [_ Hlong].
    destruct Hlong as (Hlen & Hseed & _); [simpl; lia|]. split; [exact Hlen|exact Hseed].
Defined.

(** C10.  The EMA of the Gemini service module and the EMA of the sparkline
    chart module return the same sequence for every series and period. *)
Theorem calculateEMA_modules_agree {num : Type} `{!JsNumber num}
    (prices : list num) (period : nat) :
  GeminiService.calculateEMA prices period = SparklineChart.calculateEMA prices period.
Proof. reflexivity. Qed.

(** ** MACD *)

Section macd.
Context {num : Type} `{!JsNumber num}.

(** Subtracting the slow EMA by index is a pointwise difference as soon as
    the slow EMA covers the truncated fast EMA. *)
Lemma imap_sub_zip_with (fast slow : list num) :
  length fast ≤ length slow →
  imap (λ index val, val ⊖ get slow index) fast = zip_with num_sub fast slow.
Proof.
  intros Hlen. apply list_eq. intros i.
  rewrite list_lookup_imap, lookup_zip_with.
  destruct (fast !! i) as [x|] eqn:Hx; [|done]. cbn.
  destruct (lookup_lt_is_Some_2 slow i) as [y Hy].
  { apply lookup_lt_Some in Hx. lia. }
  rewrite Hy. cbn. by rewrite (get_lookup _ _ _ Hy).
Qed.

Lemma last_nonempty {A : Type} (l : list A) : 0 < length l → ∃ x, last l = Some x.
Proof.
  intros Hlen. destruct (last l) as [x|] eqn:Hlast; [by exists x|].
  apply last_None in Hlast. subst. cbn in Hlen. lia.
Qed.

End macd.

(** C3.  With the default periods 12, 26, 9 [calculateMACD] returns absent
    exactly when the series has fewer than 26 + 9 = 35 candles.  On 35
    candles or more it returns the latest MACD value [m] and signal value [s]
    rounded to two decimals, with the histogram the rounded difference
    [m - s]; the MACD line is the fast EMA, truncated from its front by
    26 - 12 samples, minus the slow EMA, and the signal line is the 9-period
    EMA of the MACD line. *)
Theorem calculateMACD_default_spec {num : Type} `{!JsNumber num}
    (candles : list (Candle num)) :
  let prices := close <$> candles in
  let macd := zip_with num_sub
                (drop (26 - 12) (GeminiService.calculateEMA prices 12))
                (GeminiService.calculateEMA prices 26) in
  let sig := GeminiService.calculateEMA macd 9 in
  (GeminiService.calculateMACD candles 12 26 9 = None ↔ length candles < 26 + 9) ∧
  (26 + 9 ≤ length candles →
     ∃ m s, last macd = Some m ∧ last sig = Some s ∧
       GeminiService.calculateMACD candles 12 26 9
       = Some {| GeminiService.macdLine := toFixed2 m;
                 GeminiService.signalLine := toFixed2 s;
                 GeminiService.histogram := toFixed2 (m ⊖ s) |}).
Proof.
  cbv zeta. unfold GeminiService.calculateMACD.
  assert (Hn : length (close <$> candles) = length candles) by apply length_fmap.
  remember (close <$> candles) as prices eqn:Hprices. clear Hprices.
  rewrite Hn. cbv zeta.
  destruct (Nat.ltb_spec (length candles) (26 + 9)) as [Hshort|Hlong].
  { split; [done|]. intros ?. lia. }
  assert (Hfast : length (GeminiService.calculateEMA prices 12) = length candles - 12 + 1)
    by (rewrite length_calculateEMA; lia).
  assert (Hslow : length (GeminiService.calculateEMA prices 26) = length candles - 26 + 1)
    by (rewrite length_calculateEMA; lia).
  change (slice_from (Z.of_nat 26 - Z.of_nat 12) (GeminiService.calculateEMA prices 12))
    with (drop (26 - 12) (GeminiService.calculateEMA prices 12)).
  rewrite imap_sub_zip_with by (rewrite length_drop; lia).
  remember (zip_with num_sub (drop (26 - 12) (GeminiService.calculateEMA prices 12))
              (GeminiService.calculateEMA prices 26)) as macd eqn:Hmacd.
  assert (Hlen : length macd = length candles - 26 + 1).
  { subst macd. rewrite length_zip_with, length_drop. lia. }
  destruct (Nat.ltb_spec (length macd) 9) as [?|_]; [lia|].
  destruct (last_nonempty macd) as [m Hm]; [lia|].
  destruct (last_nonempty (GeminiService.calculateEMA macd 9)) as [s Hs].
  { rewrite length_calculateEMA; lia. }
  rewrite Hm, Hs. split.
  - split; [done|]. intros ?. lia.
  - intros _. by exists m, s.
Qed.

Lemma calculateMACD_default_spec_witness :
  ∃ result,
    GeminiService.calculateMACD
      ((λ z, mkCandle (inject_Z 0) (inject_Z z) (inject_Z 0)) <$> seqZ 1 35) 12 26 9
    = Some result.
Proof.
  destruct (calculateMACD_default_spec (num:=Q)
              ((λ z, mkCandle (inject_Z 0) (inject_Z z) (inject_Z 0)) <$> seqZ 1 35))
    as [_ Hlong].
  destruct Hlong as (m & s & _ & _ & Hresult); [vm_compute; lia|].
  eexists. exact Hresult.
Defined.

(** ** RSI *)

Section rsi.
Context {num : Type} `{!JsNumber num}.

Lemma length_deltas (prices : list num) :
  length (IndicatorSpec.deltas prices) = length prices - 1.
Proof.
  unfold IndicatorSpec.deltas. rewrite length_zip_with.
  destruct prices as [|x prices]; [done|]. cbn [tail length]. lia.
Qed.

(** The change computed at loop index [i + 1] is the [i]-th delta. *)
Lemma change_is_delta (prices : list num) (i : nat) (d : num) :
  IndicatorSpec.deltas prices !! i = Some d →
  get prices (1 + i) ⊖ get prices (1 + i - 1) = d.
Proof.
  unfold IndicatorSpec.deltas. intros Hd.
  rewrite lookup_zip_with, lookup_tail in Hd.
  destruct (prices !! i) as [x|] eqn:Hx; [|done].
  destruct (prices !! S i) as [y|] eqn:Hy; [|done].
  injection Hd as <-.
  replace (1 + i - 1) with i by lia.
  by rewrite (get_lookup prices i x Hx), (get_lookup prices (1 + i) y Hy).
Qed.

End rsi.

(** C4.  [calculateRSI] returns absent exactly when the series has at most
    [period] candles.  On a longer series it averages gains and losses over
    the first [period] deltas, applies Wilder smoothing
    [avg = (avg*(period-1) + current)/period] to the remaining deltas in
    order, and returns 100 when the final average loss is zero and
    [100 - 100/(1 + avgGain/avgLoss)] rounded to two decimals otherwise. *)
Theorem calculateRSI_spec {num : Type} `{!JsNumber num}
    (candles : list (Candle num)) (period : nat) :
  let ds := IndicatorSpec.deltas (close <$> candles) in
  (GeminiService.calculateRSI candles period = None ↔ length candles ≤ period) ∧
  (period < length candles →
     GeminiService.calculateRSI candles period
     = Some (IndicatorSpec.rsi_value
               (foldl (IndicatorSpec.wilder period)
                      (IndicatorSpec.initial_averages period (take period ds))
                      (drop period ds)))).
Proof.
  cbv zeta. unfold GeminiService.calculateRSI.
  destruct (Nat.leb_spec (length candles) period) as [Hshort|Hlong].
  { split; [done|]. intros ?. lia. }
  assert (Hn : length (close <$> candles) = length candles) by apply length_fmap.
  remember (close <$> candles) as prices eqn:Hprices. clear Hprices.
  pose proof (length_deltas prices) as Hds.
  unfold for_loop.
  replace (period + 1 - 1) with period by lia.
  replace (period + 1) with (1 + period) by lia.
  rewrite (for_loop_slice (IndicatorSpec.deltas prices) _
             (λ '(gains, losses) d,
                if num_gt d (of_Z 0) then (gains ⊕ d, losses) else (gains, losses ⊖ d))
             1 0 period); [|intros i d [g l] Hd _|lia]; cycle 1.
  { by rewrite (change_is_delta _ _ _ Hd). }
  rewrite drop_0.
  unfold IndicatorSpec.initial_averages.
  destruct (foldl _ (of_Z 0, of_Z 0) (take period (IndicatorSpec.deltas prices)))
    as [gains losses].
  rewrite (for_loop_slice (IndicatorSpec.deltas prices) _
             (IndicatorSpec.wilder period) 1 period (length prices - (1 + period)));
    [|intros i d [g l] Hd _|lia]; cycle 1.
  { cbn beta iota. by rewrite (change_is_delta _ _ _ Hd). }
  rewrite (take_ge (drop period _)) by (rewrite length_drop; lia).
  unfold IndicatorSpec.rsi_value.
  destruct (foldl (IndicatorSpec.wilder period) _ _) as [avgGain avgLoss].
  destruct (num_seq avgLoss (of_Z 0)).
  - split; [|done]. split; [done|]. intros ?. lia.
  - split; [|done]. split; [done|]. intros ?. lia.
Qed.

Lemma calculateRSI_spec_witness :
  GeminiService.calculateRSI
    ((λ z, mkCandle (inject_Z 0) (inject_Z z) (inject_Z 0)) <$> [10; 11; 13; 12; 14]%Z) 2
  = Some (4231 # 50)%Q.
Proof.
  destruct (calculateRSI_spec (num:=Q)
              ((λ z, mkCandle (inject_Z 0) (inject_Z z) (inject_Z 0))
                 <$> [10; 11; 13; 12; 14]%Z) 2) as [_ Hlong].
  rewrite Hlong; [|simpl; lia]. vm_compute. reflexivity.
Defined.

(** ** The store of symbol machines *)

Section store.
Context {num : Type}.
Variable STOCKS : list string.
Variable REFRESH_INTERVAL_SECONDS : Z.
Variable maxConcurrent : nat.

Implicit Types (stockData prev : gmap string (App.StockState num)).
Implicit Types (P : string → App.StockState num → Prop).

Lemma every_entry_alter P prev (f : App.StockState num → App.StockState num) symbol :
  (∀ s, P symbol s → P symbol (f s)) →
  App.every_entry P prev → App.every_entry P (alter f symbol prev).
Proof.
  intros Hf Hall key s. rewrite lookup_alter. case_decide as Hkey.
  - subst key. destruct (prev !! symbol) as [s0|] eqn:Hs0; [|done].
    intros [= <-]. by apply Hf, Hall.
  - apply Hall.
Qed.

Lemma every_entry_fmap P prev (f : App.StockState num → App.StockState num) :
  (∀ key s, P key s → P key (f s)) →
  App.every_entry P prev → App.every_entry P (f <$> prev).
Proof.
  intros Hf Hall key s. rewrite lookup_fmap.
  destruct (prev !! key) as [s0|] eqn:Hs0; [|done].
  intros [= <-]. by apply Hf, Hall.
Qed.

Lemma every_entry_initialState P :
  (∀ symbol, P symbol (App.mkStock symbol [] None REFRESH_INTERVAL_SECONDS
                         App.OFFLINE [] None)) →
  App.every_entry P (App.initialState STOCKS REFRESH_INTERVAL_SECONDS).
Proof.
  intros Hinit. unfold App.initialState.
  assert (Hgen : ∀ acc : gmap string (App.StockState num), App.every_entry P acc →
    App.every_entry P
      (foldl (λ initialState symbol,
                <[symbol := App.mkStock symbol [] None REFRESH_INTERVAL_SECONDS
                              App.OFFLINE [] None]> initialState) acc STOCKS)).
  { induction STOCKS as [|symbol rest IH]; intros acc Hacc; [done|].
    cbn [foldl]. apply IH. intros key s. rewrite lookup_insert. case_decide.
    - subst key. intros [= <-]. apply Hinit.
    - apply Hacc. }
  apply Hgen. intros key s. by rewrite lookup_empty.
Qed.

Lemma every_entry_step P ev (st st' : App.AppState num) :
  App.kept_by_updaters REFRESH_INTERVAL_SECONDS P →
  App.app_step STOCKS REFRESH_INTERVAL_SECONDS maxConcurrent ev st = Some st' →
  App.every_entry P (App.stockData st) → App.every_entry P (App.stockData st').
Proof.
  intros Hkept Hstep Hall. destruct ev; cbn in Hstep.
  - destruct (App.isRefreshingAll _); by simplify_eq/=.
  - simplify_eq/=. apply every_entry_fmap; [|done]. intros key s. apply Hkept.
  - by simplify_eq/=.
  - destruct (ApiRateLimiter.dispatch _ _) as [[[symbol|signals] l]|]; simplify_eq/=.
    + apply every_entry_alter; [|done]. intros s. apply Hkept.
    + done.
  - destruct (ApiRateLimiter.complete _ _); simplify_eq/=.
    destruct result as [error|signal]; (apply every_entry_alter; [|done]);
      intros s Hs; by apply Hkept.
  - destruct (ApiRateLimiter.complete _ _); by simplify_eq/=.
  - simplify_eq/=. apply every_entry_alter; [|done]. intros s Hs. by apply Hkept.
  - simplify_eq/=. apply every_entry_fmap; [|done]. intros key s. apply Hkept.
Qed.

(** Induction over the states the running component can be in. *)
Lemma reachable_ind (Q : App.AppState num → Prop) :
  Q (App.mounted STOCKS REFRESH_INTERVAL_SECONDS) →
  (∀ ev st st',
     Q st → App.app_step STOCKS REFRESH_INTERVAL_SECONDS maxConcurrent ev st = Some st' →
     Q st') →
  ∀ st, App.reachable STOCKS REFRESH_INTERVAL_SECONDS maxConcurrent st → Q st.
Proof.
  intros Hinit Hstep st [evs Hrun].
  revert Hrun Hinit. generalize (App.mounted (num:=num) STOCKS REFRESH_INTERVAL_SECONDS).
  induction evs as [|ev evs IH]; intros st0 Hrun Hst0; cbn in Hrun.
  - by simplify_eq.
  - destruct (App.app_step _ _ _ ev st0) as [st1|] eqn:Hst1; [|done].
    cbn in Hrun. eauto.
Qed.

Lemma app_run_app (evs evs' : list (App.AppEvent num)) (st : App.AppState num) :
  App.app_run STOCKS REFRESH_INTERVAL_SECONDS maxConcurrent (evs ++ evs') st
  = App.app_run STOCKS REFRESH_INTERVAL_SECONDS maxConcurrent evs st
    ≫= App.app_run STOCKS REFRESH_INTERVAL_SECONDS maxConcurrent evs'.
Proof.
  revert st. induction evs as [|ev evs IH]; intros st; [done|]. cbn.
  destruct (App.app_step _ _ _ ev st) as [st1|]; [|done]. cbn. apply IH.
Qed.

Lemma reachable_every_entry P (st : App.AppState num) :
  (∀ symbol, P symbol (App.mkStock symbol [] None REFRESH_INTERVAL_SECONDS
                         App.OFFLINE [] None)) →
  App.kept_by_updaters REFRESH_INTERVAL_SECONDS P →
  App.reachable STOCKS REFRESH_INTERVAL_SECONDS maxConcurrent st →
  App.every_entry P (App.stockData st).
Proof.
  intros Hinit Hkept.
  apply (reachable_ind (λ st, App.every_entry P (App.stockData st))).
  - by apply every_entry_initialState.
  - intros ev st0 st1 Hall Hstep. by eapply every_entry_step.
Qed.

(** While the component runs every entry sits under its own symbol. *)
Lemma reachable_keyed (st : App.AppState num) :
  App.reachable STOCKS REFRESH_INTERVAL_SECONDS maxConcurrent st →
  App.keyed_by_symbol (App.stockData st).
Proof.
  apply reachable_every_entry; [done|].
  intros key s Hs. split_and!; try done. unfold App.tick_entry.
  destruct (App.status s); [done| |done].
  by destruct (App.countdown s - 1 <=? 0)%Z.
Qed.

(** With a refresh interval of at least one second, a machine that is
    ONLINE always has at least one second left. *)
Lemma reachable_online_has_time (st : App.AppState num) :
  (1 ≤ REFRESH_INTERVAL_SECONDS)%Z →
  App.reachable STOCKS REFRESH_INTERVAL_SECONDS maxConcurrent st →
  App.online_has_time (App.stockData st).
Proof.
  intros Hinterval. apply reachable_every_entry; [done|].
  intros key s Hs. split_and!; try done.
  unfold App.tick_entry. destruct (App.status s) eqn:Hstatus.
  - by rewrite Hstatus.
  - destruct (Z.leb_spec (App.countdown s - 1) 0); cbn; [done|]. intros _. lia.
  - by rewrite Hstatus.
Qed.

End store.

(** ** Classification of provider failures *)

Section classification.
Import GeminiService.
Variable trim : string → string.
Variable JSON_parse : string → string + Json.
Variable null_read_message : string.

(** The [catch] clause tests the error in a fixed order.  It throws an
    [AIError] that keeps the raw message, unless the value is not a
    [SyntaxError] and the classifier cannot read its message: then the
    [TypeError] of the classifier is what leaves the function. *)
Lemma catch_clause_cases (error : JsError) :
  catch_clause error =
  if instanceof error SyntaxError
  then new_AIError (message error) invalid_format_message
  else match lowered_message error with
       | inl complaint => Native TypeError (Some complaint)
       | inr message_lc =>
           new_AIError (message error)
             (if includes message_lc "api key not valid" then invalid_key_message
              else if includes message_lc "429" || includes message_lc "resource_exhausted"
                   then rate_limit_message
              else if instanceof error TypeError then network_message
              else unexpected_message)
       end.
Proof.
  unfold catch_clause, handleApiError.
  destruct (instanceof error SyntaxError); [done|].
  destruct (lowered_message error) as [complaint|message_lc]; [done|].
  destruct (includes _ "api key not valid"); [done|].
  destruct (includes _ "429" || includes _ "resource_exhausted"); [done|].
  by destruct (instanceof error TypeError).
Qed.

(** The classifier throws an [AIError] with one of its four messages, or
    its own [TypeError]. *)
Lemma handleApiError_cases (error : JsError) :
  match lowered_message error with
  | inl complaint => handleApiError error = Native TypeError (Some complaint)
  | inr _ =>
      ∃ friendly,
        handleApiError error = new_AIError (message error) friendly ∧
        friendly ∈ [invalid_key_message; rate_limit_message; network_message;
                    unexpected_message]
  end.
Proof.
  unfold handleApiError.
  destruct (lowered_message error) as [complaint|message_lc]; [done|].
  destruct (includes _ "api key not valid"); [eexists; split; [done|set_solver]|].
  destruct (includes _ "429" || includes _ "resource_exhausted");
    [eexists; split; [done|set_solver]|].
  destruct (instanceof error TypeError); eexists; (split; [done|set_solver]).
Qed.

(** Whatever the provider does, a rejection of [getStockSignal] is an
    [AIError] carrying one of the five messages, or the [TypeError] of
    the classifier. *)
Lemma getStockSignal_rejection (response : GenerateContent) (error : JsError) :
  getStockSignal trim JSON_parse null_read_message response = inl error →
  (∃ raw friendly, error = AIError raw friendly ∧ friendly ∈ user_facing_messages) ∨
  (∃ complaint, error = Native TypeError (Some complaint)).
Proof.
  unfold getStockSignal. intros Hreject.
  destruct (match response with Rejects e => inl e | Responds text => _ end)
    as [thrown|value]; [|done].
  injection Hreject as <-. rewrite catch_clause_cases.
  unfold user_facing_messages.
  destruct (instanceof thrown SyntaxError); [left; eexists _, _; split; [done|set_solver]|].
  destruct (lowered_message thrown) as [complaint|message_lc]; [right; by eexists|].
  left. eexists _, _. split; [done|].
  destruct (includes _ "api key not valid"); [set_solver|].
  destruct (includes _ "429" || includes _ "resource_exhausted"); [set_solver|].
  destruct (instanceof thrown TypeError); set_solver.
Qed.

(** A response that parses to a value other than [null] and lacks one of
    type, reason, news is reported with the generic message. *)
Lemma missing_fields_unexpected (text : string) (parsedJson : Json) :
  JSON_parse (strip_fences trim text) = inr parsedJson →
  parsedJson ≠ JNull →
  truthy (property parsedJson "type") && truthy (property parsedJson "reason")
    && isArray (property parsedJson "news") = false →
  getStockSignal trim JSON_parse null_read_message (Responds text)
  = inl (AIError "Invalid JSON structure received from AI." unexpected_message).
Proof.
  intros Hparse Hnull Hfields. unfold getStockSignal, read_response.
  rewrite Hparse. destruct parsedJson; [done|..]; by rewrite Hfields.
Qed.

End classification.

(** C7.  The response [null] is valid JSON without type, reason or news,
    yet [getStockSignal] does not report it with the generic message: the
    read of [parsedJson.type] raises a [TypeError], which the classifier
    takes for a network failure. *)
Theorem null_response_reported_as_network_error
    (trim : string → string) (JSON_parse : string → string + GeminiService.Json) :
  JSON_parse (GeminiService.strip_fences trim "null") = inr GeminiService.JNull →
  GeminiService.getStockSignal trim JSON_parse GeminiService.v8_null_read_message
    (GeminiService.Responds "null")
  = inl (GeminiService.AIError GeminiService.v8_null_read_message
           GeminiService.network_message)
  ∧ GeminiService.network_message ≠ GeminiService.unexpected_message.
Proof.
  intros Hparse. split; [|done].
  unfold GeminiService.getStockSignal, GeminiService.read_response.
  rewrite Hparse. reflexivity.
Qed.

Lemma null_response_reported_as_network_error_witness :
  GeminiService.getStockSignal GeminiService.trim_nothing
    GeminiService.parse_null_literal GeminiService.v8_null_read_message
    (GeminiService.Responds "null")
  = inl (GeminiService.AIError GeminiService.v8_null_read_message
           GeminiService.network_message).
Proof.
  apply (null_response_reported_as_network_error
           GeminiService.trim_nothing GeminiService.parse_null_literal).
  reflexivity.
Defined.

(** ** A failed refresh *)

(** C2.  When the provider call of a refresh fails, the failure handler
    keeps the symbol's candles and signal, sets the status to OFFLINE, resets
    the countdown to the configured interval and records the message the
    classifier attached to the error, [error.userFriendlyMessage]; for a
    value that is not an [AIError] it records "An unknown error occurred.".
    Entering REFRESHING had not touched candles or signal either, so both
    are as before the attempt.  For a rejection of [getStockSignal] the
    recorded message is the classification of the value caught there, in
    the order of the tests: invalid response format for a [SyntaxError],
    then the invalid-key and rate-limit markers, network for a [TypeError],
    the generic message otherwise; only a caught value whose message the
    classifier cannot read ends as the unknown error. *)
Theorem failed_refresh_spec {num : Type} (REFRESH_INTERVAL_SECONDS : Z)
    (symbol : string) (error : GeminiService.JsError)
    (prev : gmap string (App.StockState num)) (before : App.StockState num) :
  prev !! symbol = Some before →
  let recorded :=
    match error with
    | GeminiService.AIError _ userFriendlyMessage => userFriendlyMessage
    | _ => "An unknown error occurred."
    end in
  (∃ during after,
     App.fetchSignal_begin symbol prev !! symbol = Some during ∧
     App.candles during = App.candles before ∧
     App.signal during = App.signal before ∧
     App.fetchSignal_rejected REFRESH_INTERVAL_SECONDS symbol error
       (App.fetchSignal_begin symbol prev) !! symbol = Some after ∧
     App.candles after = App.candles before ∧
     App.signal after = App.signal before ∧
     App.status after = App.OFFLINE ∧
     App.countdown after = REFRESH_INTERVAL_SECONDS ∧
     App.error after = Some recorded) ∧
  (∃ after,
     App.fetchSignal_rejected REFRESH_INTERVAL_SECONDS symbol error prev !! symbol
       = Some after ∧
     App.candles after = App.candles before ∧
     App.signal after = App.signal before ∧
     App.status after = App.OFFLINE ∧
     App.countdown after = REFRESH_INTERVAL_SECONDS ∧
     App.error after = Some recorded) ∧
  (∀ trim JSON_parse null_read_message response,
     GeminiService.getStockSignal trim JSON_parse null_read_message response = inl error →
     ∃ caught,
       (response = GeminiService.Rejects caught ∨
        ∃ text, response = GeminiService.Responds text ∧
                GeminiService.read_response trim JSON_parse null_read_message text
                = inl caught) ∧
       recorded =
       if GeminiService.instanceof caught GeminiService.SyntaxError
       then GeminiService.invalid_format_message
       else match GeminiService.lowered_message caught with
            | inl _ => "An unknown error occurred."
            | inr message_lc =>
                if GeminiService.includes message_lc "api key not valid"
                then GeminiService.invalid_key_message
                else if GeminiService.includes message_lc "429"
                        || GeminiService.includes message_lc "resource_exhausted"
                then GeminiService.rate_limit_message
                else if GeminiService.instanceof caught GeminiService.TypeError
                then GeminiService.network_message
                else GeminiService.unexpected_message
            end).
Proof.
  intros Hbefore recorded. split_and!.
  - unfold App.fetchSignal_rejected, App.fetchSignal_begin.
    eexists _, _. rewrite !lookup_alter_eq, Hbefore. cbn. done.
  - unfold App.fetchSignal_rejected.
    eexists. rewrite lookup_alter_eq, Hbefore. cbn. done.
  - intros trim JSON_parse null_read_message response Hreject.
    assert (Hcaught : ∃ caught,
      (response = GeminiService.Rejects caught ∨
       ∃ text, response = GeminiService.Responds text ∧
               GeminiService.read_response trim JSON_parse null_read_message text
               = inl caught) ∧
      error = GeminiService.catch_clause caught).
    { unfold GeminiService.getStockSignal in Hreject.
      destruct response as [caught|text].
      - injection Hreject as <-. exists caught. split; [by left|done].
      - destruct (GeminiService.read_response _ _ _ text) as [caught|value] eqn:Hread;
          [|done].
        injection Hreject as <-. exists caught. split; [right; by exists text|done]. }
    destruct Hcaught as (caught & Hresponse & Herror). exists caught. split; [done|].
    unfold recorded. rewrite Herror, catch_clause_cases.
    destruct (GeminiService.instanceof caught GeminiService.SyntaxError); [done|].
    by destruct (GeminiService.lowered_message caught).
Qed.

Lemma failed_refresh_spec_witness :
  ∃ after,
    App.fetchSignal_rejected 60 "TCS"
      (GeminiService.AIError "API key not valid" GeminiService.invalid_key_message)
      {[ "TCS" := App.mkStock (num:=Q) "TCS" [mkCandle 0 100 5]%Q
                   (Some (App.mkSignal App.BUY "momentum" [])) 0 App.REFRESHING [] None ]}
      !! "TCS" = Some after ∧
    App.candles after = [mkCandle 0 100 5]%Q ∧
    App.signal after = Some (App.mkSignal App.BUY "momentum" []) ∧
    App.status after = App.OFFLINE ∧
    App.countdown after = 60%Z ∧
    App.error after = Some GeminiService.invalid_key_message.
Proof.
  destruct (failed_refresh_spec (num:=Q) 60 "TCS"
              (GeminiService.AIError "API key not valid" GeminiService.invalid_key_message)
              {[ "TCS" := App.mkStock (num:=Q) "TCS" [mkCandle 0 100 5]%Q
                   (Some (App.mkSignal App.BUY "momentum" [])) 0 App.REFRESHING [] None ]}
              (App.mkStock (num:=Q) "TCS" [mkCandle 0 100 5]%Q
                   (Some (App.mkSignal App.BUY "momentum" [])) 0 App.REFRESHING [] None))
    as (_ & Hhandler & _).
  - reflexivity.
  - exact Hhandler.
Defined.

(** ** The heartbeat *)

Section heartbeat.
Context {num : Type}.
Implicit Types (prevData : gmap string (App.StockState num)).

(** The refreshes a tick hands to the scheduler are those of the symbols
    found ONLINE with no time left after the decrement. *)
Lemma elem_of_tick_due prevData (symbol : string) :
  App.FetchSignal symbol ∈ (App.tick prevData).2 ↔
  ∃ s, prevData !! symbol = Some s ∧ App.tick_due s = true.
Proof.
  cbn. rewrite list_elem_of_fmap_inj by (by intros ?? [= ->]).
  rewrite list_elem_of_fmap. split.
  - intros ([key s] & -> & Hin). apply list_elem_of_filter in Hin as [Hdue Hin].
    apply elem_of_map_to_list in Hin. exists s. split; [done|].
    by apply Is_true_true.
  - intros (s & Hs & Hdue). exists (symbol, s). split; [done|].
    apply list_elem_of_filter. split; [by apply Is_true_true|].
    by apply elem_of_map_to_list.
Qed.

Lemma NoDup_tick_due prevData : NoDup (App.tick prevData).2.
Proof.
  cbn. apply NoDup_fmap_2; [by intros ?? [= ->]|].
  apply (sublist_NoDup _ (map_to_list prevData).*1).
  - apply NoDup_fst_map_to_list.
  - apply (fmap_sublist fst), sublist_filter.
Qed.

End heartbeat.

(** C8.  On a tick of the running component (refresh interval of at least
    one second) every ONLINE machine has its countdown decreased by exactly
    1; the ONLINE machines whose countdown was 1 are REFRESHING in the store
    the tick produces and are exactly the ones handed to the scheduler, once
    each; every other ONLINE machine stays ONLINE; OFFLINE and REFRESHING
    machines are left as they were, and no machine appears or disappears. *)
Theorem heartbeat_tick_spec {num : Type} (STOCKS : list string)
    (REFRESH_INTERVAL_SECONDS : Z) (maxConcurrent : nat) (st : App.AppState num) :
  (1 ≤ REFRESH_INTERVAL_SECONDS)%Z →
  App.reachable STOCKS REFRESH_INTERVAL_SECONDS maxConcurrent st →
  let prevData := App.stockData st in
  let newData := (App.tick prevData).1 in
  let symbolsToFetch := (App.tick prevData).2 in
  NoDup symbolsToFetch ∧
  ∀ symbol,
    match prevData !! symbol with
    | None => newData !! symbol = None ∧ App.FetchSignal symbol ∉ symbolsToFetch
    | Some before =>
        ∃ after,
          newData !! symbol = Some after ∧
          App.symbol after = App.symbol before ∧
          App.candles after = App.candles before ∧
          App.signal after = App.signal before ∧
          App.chatHistory after = App.chatHistory before ∧
          App.error after = App.error before ∧
          match App.status before with
          | App.ONLINE =>
              App.countdown after = (App.countdown before - 1)%Z ∧
              App.status after
                = (if decide (App.countdown before = 1%Z) then App.REFRESHING else App.ONLINE) ∧
              (App.FetchSignal symbol ∈ symbolsToFetch ↔ App.countdown before = 1%Z)
          | _ => after = before ∧ App.FetchSignal symbol ∉ symbolsToFetch
          end
    end.
Proof.
  intros Hinterval Hreach. cbv zeta.
  pose proof (reachable_online_has_time _ _ _ st Hinterval Hreach) as Hok.
  split; [apply NoDup_tick_due|]. intros symbol.
  pose proof (elem_of_tick_due (App.stockData st) symbol) as Hdue.
  change ((App.tick (App.stockData st)).1) with (App.tick_entry <$> App.stockData st).
  rewrite lookup_fmap.
  destruct (App.stockData st !! symbol) as [before|] eqn:Hbefore; cbn.
  - pose proof (Hok symbol before Hbefore) as Hpos. cbn beta in Hpos.
    exists (App.tick_entry before). split; [done|].
    unfold App.tick_entry, App.tick_due in *.
    destruct (App.status before) eqn:Hstatus.
    + split_and!; try done. rewrite Hdue. intros (s & [= <-] & Hs).
      by rewrite Hstatus in Hs.
    + specialize (Hpos eq_refl).
      destruct (Z.leb_spec (App.countdown before - 1) 0) as [Hzero|Hmore]; cbn.
      * assert (Hone : App.countdown before = 1%Z) by lia.
        rewrite decide_True by done. split_and!; try done; [lia|].
        rewrite Hdue. split; [done|]. intros _. exists before. split; [done|].
        rewrite Hstatus, Hone. done.
      * rewrite decide_False by lia. split_and!; try done.
        rewrite Hdue. split; [|lia]. intros (s & [= <-] & Hs).
        rewrite Hstatus in Hs. cbn in Hs. apply Z.leb_le in Hs. lia.
    + split_and!; try done. rewrite Hdue. intros (s & [= <-] & Hs).
      by rewrite Hstatus in Hs.
  - split; [done|]. rewrite Hdue. by intros (s & ? & _).
Qed.

(** ** The sentiment trigger *)

Section sentiment.
Context {num : Type}.
Implicit Types (stockData : gmap string (App.StockState num)).

(** Folding [record_signal] over entries with distinct symbols records
    each signal under its symbol and keeps what was recorded before under
    the other symbols. *)
Lemma foldl_record_signal (l : list (App.StockState num))
    (acc : gmap string App.SignalType) (key : string) (ty : App.SignalType) :
  NoDup (App.symbol <$> l) →
  foldl App.record_signal acc l !! key = Some ty ↔
  (∃ s sg, s ∈ l ∧ App.symbol s = key ∧ App.signal s = Some sg ∧ App.type sg = ty) ∨
  ((∀ s, s ∈ l → is_Some (App.signal s) → App.symbol s ≠ key) ∧ acc !! key = Some ty).
Proof.
  revert acc. induction l as [|x l IH]; intros acc Hnodup; cbn [foldl].
  { split; [intros Hacc; right; split; [|done]; by intros s ?%elem_of_nil|].
    intros [(s & sg & ?%elem_of_nil & _)|[_ Hacc]]; done. }
  rewrite fmap_cons in Hnodup. apply NoDup_cons in Hnodup as [Hfresh Hnodup].
  rewrite IH by done. unfold App.record_signal at 1. split.
  - intros [(s & sg & Hin & Hs)|[Hother Hacc]].
    + left. exists s, sg. split; [by apply elem_of_cons; right|done].
    + destruct (App.signal x) as [sgx|] eqn:Hx.
      * rewrite lookup_insert in Hacc. case_decide as Hkey.
        -- left. exists x, sgx. injection Hacc as <-.
           split_and!; [apply elem_of_cons; by left|done..].
        -- right. split; [|done]. intros s [->|Hin]%elem_of_cons Hsome; [done|].
           by apply Hother.
      * right. split; [|done]. intros s [->|Hin]%elem_of_cons Hsome.
        -- rewrite Hx in Hsome. by destruct Hsome.
        -- by apply Hother.
  - intros [(s & sg & [->|Hin]%elem_of_cons & Hsym & Hsig & Hty)|[Hother Hacc]].
    + right. split.
      * intros s Hin _ Hkey. apply Hfresh. apply list_elem_of_fmap.
        exists s. split; [congruence|done].
      * rewrite Hsig, <- Hsym, <- Hty. apply lookup_insert_eq.
    + left. by exists s, sg.
    + right. split; [intros s Hin; apply Hother, elem_of_cons; by right|].
      destruct (App.signal x) as [sgx|] eqn:Hx; [|done].
      rewrite lookup_insert_ne; [done|]. apply Hother; [apply elem_of_cons; by left|].
      by rewrite Hx.
Qed.

(** In a store keyed by symbol the values carry pairwise distinct
    symbols. *)
Lemma keyed_values_symbols stockData :
  App.keyed_by_symbol stockData →
  App.symbol <$> (map_to_list stockData).*2 = (map_to_list stockData).*1.
Proof.
  intros Hkeyed. rewrite <- list_fmap_compose. apply list_fmap_ext.
  intros i [key s] Hi. cbn. apply (Hkeyed key s).
  apply elem_of_map_to_list, list_elem_of_lookup. by exists i.
Qed.

Lemma signalsForSentiment_lookup stockData (key : string) (ty : App.SignalType) :
  App.keyed_by_symbol stockData →
  App.signalsForSentiment stockData !! key = Some ty ↔
  ∃ s sg, App.online_with_signal stockData !! key = Some s ∧
          App.signal s = Some sg ∧ App.type sg = ty.
Proof.
  intros Hkeyed. unfold App.signalsForSentiment, App.online_with_signal.
  rewrite foldl_record_signal.
  2:{ apply (sublist_NoDup _ (App.symbol <$> (map_to_list stockData).*2)).
      - rewrite keyed_values_symbols by done. apply NoDup_fst_map_to_list.
      - apply (fmap_sublist App.symbol), sublist_filter. }
  split.
  - intros [(s & sg & Hin & Hsym & Hsig & Hty)|[_ Hempty]];
      [|by rewrite lookup_empty in Hempty].
    apply list_elem_of_filter in Hin as [Hq Hin].
    apply list_elem_of_fmap in Hin as ([key' s'] & -> & Hin).
    apply elem_of_map_to_list in Hin. cbn in *.
    pose proof (Hkeyed key' s' Hin) as Hkey. cbn in Hkey.
    exists s', sg. split; [|done].
    apply map_lookup_filter_Some. split; [congruence|done].
  - intros (s & sg & Hlookup & Hsig & Hty).
    apply map_lookup_filter_Some in Hlookup as [Hlookup Hq]. left.
    exists s, sg. split_and!; [|by apply (Hkeyed key s)|done..].
    apply list_elem_of_filter. split; [done|].
    apply list_elem_of_fmap. exists (key, s). split; [done|].
    by apply elem_of_map_to_list.
Qed.

End sentiment.

(** C6.  When the debounce timer of the running component fires, the
    aggregator hands the scheduler exactly one aggregation call if twice the
    number of symbols that are ONLINE with a signal exceeds the number of
    tracked symbols, that is if that number strictly exceeds half of it, and
    hands it nothing otherwise; the input of the call maps exactly those
    symbols to the type of their signal. *)
Theorem sentiment_trigger_spec {num : Type} (STOCKS : list string)
    (REFRESH_INTERVAL_SECONDS : Z) (maxConcurrent : nat) (st : App.AppState num) :
  App.reachable STOCKS REFRESH_INTERVAL_SECONDS maxConcurrent st →
  let qualifying := App.online_with_signal (App.stockData st) in
  let signals := App.signalsForSentiment (App.stockData st) in
  (∀ key ty,
     signals !! key = Some ty ↔
     ∃ s sg, qualifying !! key = Some s ∧ App.signal s = Some sg ∧ App.type sg = ty) ∧
  dom signals = dom qualifying ∧
  App.sentimentTimeout STOCKS (App.stockData st)
  = if decide (length STOCKS < 2 * size qualifying)
    then [App.GetMarketSentiment signals] else [].
Proof.
  intros Hreach. cbv zeta.
  pose proof (reachable_keyed _ _ _ st Hreach) as Hkeyed.
  assert (Hdom : dom (App.signalsForSentiment (App.stockData st))
                 = dom (App.online_with_signal (App.stockData st))).
  { apply set_eq. intros key. rewrite !elem_of_dom. split.
    - intros [ty Hty]. apply signalsForSentiment_lookup in Hty as (s & sg & Hs & _); [|done].
      by exists s.
    - intros [s Hs]. pose proof Hs as Hq.
      apply map_lookup_filter_Some in Hq as [_ [[sg Hsg] _]]. cbn in Hsg.
      exists (App.type sg). apply signalsForSentiment_lookup; [done|]. by exists s, sg. }
  split_and!; [intros key ty; by apply signalsForSentiment_lookup|done|].
  unfold App.sentimentTimeout. cbv zeta.
  rewrite <- (size_dom (App.signalsForSentiment _)), Hdom, size_dom.
  destruct (Nat.ltb_spec (length STOCKS) (2 * size (App.online_with_signal (App.stockData st)))).
  - by rewrite decide_True.
  - rewrite decide_False; [done|lia].
Qed.

Lemma state_after_reachable (evs : list (App.AppEvent Q)) :
  is_Some (App.app_run Samples.symbols Samples.interval Samples.slots evs
             (App.mounted Samples.symbols Samples.interval)) →
  App.reachable Samples.symbols Samples.interval Samples.slots (Samples.state_after evs).
Proof. intros [st Hst]. exists evs. unfold Samples.state_after. by rewrite Hst. Qed.

Lemma heartbeat_tick_spec_witness :
  ∃ after,
    (App.tick (App.stockData (Samples.state_after Samples.one_second_left))).1 !! "TCS"
      = Some after ∧
    App.countdown after = 0%Z ∧
    App.status after = App.REFRESHING.
Proof.
  destruct (heartbeat_tick_spec Samples.symbols Samples.interval Samples.slots
              (Samples.state_after Samples.one_second_left)) as [_ Hentries].
  - unfold Samples.interval. lia.
  - apply state_after_reachable. vm_compute. eexists. reflexivity.
  - specialize (Hentries "TCS").
    destruct (App.stockData (Samples.state_after Samples.one_second_left) !! "TCS")
      as [before|] eqn:Hbefore.
    + vm_compute in Hbefore. injection Hbefore as <-.
      destruct Hentries as (after & Hafter & _ & _ & _ & _ & _ & Hrest).
      cbn in Hrest. destruct Hrest as (Hcount & Hstatus & _).
      exists after. split_and!; [exact Hafter|exact Hcount|exact Hstatus].
    + vm_compute in Hbefore. discriminate.
Defined.

Lemma sentiment_trigger_spec_witness :
  App.sentimentTimeout Samples.symbols
    (App.stockData (Samples.state_after Samples.one_second_left))
  = [App.GetMarketSentiment {[ "TCS" := App.BUY; "INFY" := App.BUY ]}].
Proof.
  destruct (sentiment_trigger_spec Samples.symbols Samples.interval Samples.slots
              (Samples.state_after Samples.one_second_left)) as (_ & _ & Hcall).
  - apply state_after_reachable. vm_compute. eexists. reflexivity.
  - rewrite Hcall. vm_compute. reflexivity.
Defined.

(** ** The call scheduler *)

Section limiter.
Context {A : Type} `{!EqDecision A}.
Variable maxConcurrent : nat.

Lemma length_remove_first (action : A) (actions : list A) :
  length (ApiRateLimiter.remove_first action actions) ≤ length actions.
Proof.
  induction actions as [|a rest IH]; cbn; [done|]. case_decide; cbn; lia.
Qed.

(** What every event keeps: the budget is respected, and what was
    admitted followed by what still waits is what was submitted. *)
Lemma limiter_step_invariant (ev : ApiRateLimiter.Event A) (r r' : ApiRateLimiter.Run A) :
  ApiRateLimiter.step maxConcurrent ev r = Some r' →
  length (ApiRateLimiter.inFlight (ApiRateLimiter.limiter r)) ≤ maxConcurrent ∧
    ApiRateLimiter.dispatched r ++ ApiRateLimiter.queue (ApiRateLimiter.limiter r)
    = ApiRateLimiter.submitted r →
  length (ApiRateLimiter.inFlight (ApiRateLimiter.limiter r')) ≤ maxConcurrent ∧
    ApiRateLimiter.dispatched r' ++ ApiRateLimiter.queue (ApiRateLimiter.limiter r')
    = ApiRateLimiter.submitted r'.
Proof.
  intros Hstep [Hbound Hfifo]. destruct ev as [action| |action]; cbn in Hstep.
  - simplify_eq/=. split; [done|]. by rewrite app_assoc, Hfifo.
  - unfold ApiRateLimiter.dispatch in Hstep.
    destruct (ApiRateLimiter.queue (ApiRateLimiter.limiter r)) as [|action rest] eqn:Hq;
      [done|].
    destruct (Nat.ltb_spec (length (ApiRateLimiter.inFlight (ApiRateLimiter.limiter r)))
                maxConcurrent) as [Hfree|?]; simplify_eq/=.
    split; [rewrite length_app; cbn; lia|]. by rewrite <- app_assoc.
  - unfold ApiRateLimiter.complete in Hstep. case_decide; simplify_eq/=.
    split; [|done]. etrans; [apply length_remove_first|done].
Qed.

End limiter.

(** C9.  In every run of the limiter the number of actions in flight never
    exceeds the configured maximum, and the actions admitted so far,
    followed by those still queued, are the actions submitted so far in the
    order of their submission: admission is first-submitted first-admitted,
    and no submission is overtaken by a later one.  An action is admitted
    exactly when one is waiting and a slot is free, and it is then the
    oldest one waiting. *)
Theorem limiter_bounded_and_fifo {A : Type} `{!EqDecision A} (maxConcurrent : nat)
    (evs : list (ApiRateLimiter.Event A)) (r : ApiRateLimiter.Run A) :
  ApiRateLimiter.run maxConcurrent evs ApiRateLimiter.start = Some r →
  let l := ApiRateLimiter.limiter r in
  length (ApiRateLimiter.inFlight l) ≤ maxConcurrent ∧
  ApiRateLimiter.dispatched r ++ ApiRateLimiter.queue l = ApiRateLimiter.submitted r ∧
  (∀ i j earlier later,
     i < j →
     ApiRateLimiter.submitted r !! i = Some earlier →
     ApiRateLimiter.submitted r !! j = Some later →
     j < length (ApiRateLimiter.dispatched r) →
     ApiRateLimiter.dispatched r !! i = Some earlier ∧
     ApiRateLimiter.dispatched r !! j = Some later) ∧
  (is_Some (ApiRateLimiter.dispatch maxConcurrent l) ↔
     ApiRateLimiter.queue l ≠ [] ∧ length (ApiRateLimiter.inFlight l) < maxConcurrent) ∧
  (∀ action l',
     ApiRateLimiter.dispatch maxConcurrent l = Some (action, l') →
     ApiRateLimiter.submitted r !! length (ApiRateLimiter.dispatched r) = Some action ∧
     ApiRateLimiter.queue l = action :: ApiRateLimiter.queue l').
Proof.
  intros Hrun. cbv zeta.
  assert (Hinv : length (ApiRateLimiter.inFlight (ApiRateLimiter.limiter r)) ≤ maxConcurrent ∧
                 ApiRateLimiter.dispatched r ++ ApiRateLimiter.queue (ApiRateLimiter.limiter r)
                 = ApiRateLimiter.submitted r).
  { revert Hrun.
    assert (Hstart : length (ApiRateLimiter.inFlight
                               (ApiRateLimiter.limiter (ApiRateLimiter.start (A:=A))))
                       ≤ maxConcurrent ∧
                     ApiRateLimiter.dispatched ApiRateLimiter.start
                       ++ ApiRateLimiter.queue (ApiRateLimiter.limiter ApiRateLimiter.start)
                     = ApiRateLimiter.submitted (ApiRateLimiter.start (A:=A)))
      by (split; [cbn; lia|done]).
    revert Hstart. generalize (ApiRateLimiter.start (A:=A)).
    induction evs as [|ev rest IH]; intros r0 Hr0 Hrun; cbn in Hrun.
    - by simplify_eq.
    - destruct (ApiRateLimiter.step maxConcurrent ev r0) as [r1|] eqn:Hstep; [|done].
      cbn in Hrun. apply (IH r1); [|done]. by eapply limiter_step_invariant. }
  destruct Hinv as [Hbound Hfifo]. split_and!; [done..| | |].
  - intros i j earlier later Hij Hi Hj Hdispatched. rewrite <- Hfifo in Hi, Hj.
    rewrite lookup_app_l in Hi by lia. by rewrite lookup_app_l in Hj by lia.
  - unfold ApiRateLimiter.dispatch.
    destruct (ApiRateLimiter.queue (ApiRateLimiter.limiter r)) as [|action rest].
    { split; [by intros [? ?]|by intros [? _]]. }
    destruct (Nat.ltb_spec (length (ApiRateLimiter.inFlight (ApiRateLimiter.limiter r)))
                maxConcurrent).
    + split; [done|]. intros _. by eexists.
    + split; [by intros [? ?]|]. intros [_ ?]. lia.
  - intros action l' Hdispatch. unfold ApiRateLimiter.dispatch in Hdispatch.
    destruct (ApiRateLimiter.queue (ApiRateLimiter.limiter r)) as [|first rest] eqn:Hq;
      [done|].
    destruct (_ <? _); simplify_eq/=. split; [|done].
    rewrite <- Hfifo. by rewrite list_lookup_middle.
Qed.

Lemma limiter_bounded_and_fifo_witness :
  ∃ r, ApiRateLimiter.run 2 Samples.limiter_events ApiRateLimiter.start = Some r ∧
       ApiRateLimiter.dispatched r = [1; 2; 3] ∧
       length (ApiRateLimiter.inFlight (ApiRateLimiter.limiter r)) ≤ 2.
Proof.
  eexists. split; [reflexivity|]. split; [reflexivity|].
  eapply (limiter_bounded_and_fifo 2 Samples.limiter_events). reflexivity.
Defined.

(** ** Refresh requests for a machine that is already REFRESHING *)

Section duplicates.
Context {num : Type}.
Implicit Types (stockData : gmap string (App.StockState num)).

(** The button is disabled as soon as one machine is REFRESHING. *)
Lemma isRefreshingAll_true stockData (symbol : string) (s : App.StockState num) :
  stockData !! symbol = Some s → App.status s = App.REFRESHING →
  App.isRefreshingAll stockData = true.
Proof.
  intros Hs Hstatus. unfold App.isRefreshingAll. apply existsb_exists.
  exists s. split; [|by apply bool_decide_eq_true].
  apply list_elem_of_In, list_elem_of_fmap. exists (symbol, s). split; [done|].
  by apply elem_of_map_to_list.
Qed.

Lemma refreshes_after_admission (inFlight : list App.ApiCall) (symbol : string) :
  length (filter (λ a, a = App.FetchSignal symbol) (inFlight ++ [App.FetchSignal symbol]))
  = S (length (filter (λ a, a = App.FetchSignal symbol) inFlight)).
Proof.
  rewrite filter_app, length_app. cbn. rewrite decide_True by done. cbn. lia.
Qed.

End duplicates.

(** The two places that issue refresh requests leave a machine that is
    REFRESHING alone: the heartbeat issues no refresh for it, and the
    Refresh All button is disabled. *)
Lemma refresh_sources_skip_refreshing {num : Type} (STOCKS : list string)
    (REFRESH_INTERVAL_SECONDS : Z) (maxConcurrent : nat)
    (st : App.AppState num) (symbol : string) (s : App.StockState num) :
  App.stockData st !! symbol = Some s →
  App.status s = App.REFRESHING →
  (App.FetchSignal symbol ∉ (App.tick (App.stockData st)).2) ∧
  App.app_step STOCKS REFRESH_INTERVAL_SECONDS maxConcurrent App.ClickRefreshAll st = None.
Proof.
  intros Hs Hstatus. split.
  - rewrite elem_of_tick_due. intros (s0 & Hs0 & Hdue). simplify_eq.
    unfold App.tick_due in Hdue. by rewrite Hstatus in Hdue.
  - cbn. by rewrite (isRefreshingAll_true _ _ _ Hs Hstatus).
Qed.

(** C1.  The code does not keep refreshes to one per symbol.  A refresh
    that waits in the scheduler is not ignored when the machine of its symbol
    is already REFRESHING with a provider call in flight: [handleRefreshAll]
    submits a refresh for every symbol without marking its machine, and
    [fetchSignal] does not look at the status, so once the waiting refresh is
    admitted a second provider call for the symbol is in flight. *)
Theorem duplicate_refresh_starts_second_call {num : Type} (STOCKS : list string)
    (REFRESH_INTERVAL_SECONDS : Z) (maxConcurrent : nat)
    (st : App.AppState num) (symbol : string) (s : App.StockState num)
    (l : ApiRateLimiter.Limiter App.ApiCall) :
  App.reachable STOCKS REFRESH_INTERVAL_SECONDS maxConcurrent st →
  App.stockData st !! symbol = Some s →
  App.status s = App.REFRESHING →
  1 ≤ App.refreshes_in_flight symbol st →
  ApiRateLimiter.dispatch maxConcurrent (App.calls st) = Some (App.FetchSignal symbol, l) →
  ∃ st' s',
    App.app_step STOCKS REFRESH_INTERVAL_SECONDS maxConcurrent App.LimiterDispatches st
      = Some st' ∧
    App.reachable STOCKS REFRESH_INTERVAL_SECONDS maxConcurrent st' ∧
    App.stockData st' !! symbol = Some s' ∧
    App.status s' = App.REFRESHING ∧
    2 ≤ App.refreshes_in_flight symbol st'.
Proof.
  intros [evs Hrun] Hs Hstatus Hflight Hdispatch.
  assert (Hstep : App.app_step STOCKS REFRESH_INTERVAL_SECONDS maxConcurrent
                    App.LimiterDispatches st
                  = Some {| App.stockData := App.fetchSignal_begin symbol (App.stockData st);
                            App.calls := l |}).
  { cbn. by rewrite Hdispatch. }
  eexists _, _. split; [exact Hstep|]. split_and!.
  - exists (evs ++ [App.LimiterDispatches]). rewrite app_run_app, Hrun. cbn.
    by rewrite Hdispatch.
  - cbn. unfold App.fetchSignal_begin. by rewrite lookup_alter_eq, Hs.
  - done.
  - unfold ApiRateLimiter.dispatch in Hdispatch.
    destruct (ApiRateLimiter.queue (App.calls st)) as [|first rest]; [done|].
    destruct (_ <? _); simplify_eq/=.
    unfold App.refreshes_in_flight in *. cbn. rewrite refreshes_after_admission. lia.
Qed.

Lemma duplicate_refresh_starts_second_call_witness :
  ∃ st' : App.AppState Q,
    App.app_step Samples.symbols Samples.interval Samples.slots App.LimiterDispatches
      (Samples.state_after Samples.pressed_between_dispatches) = Some st' ∧
    App.reachable Samples.symbols Samples.interval Samples.slots st' ∧
    2 ≤ App.refreshes_in_flight "INFY" st'.
Proof.
  edestruct (duplicate_refresh_starts_second_call Samples.symbols Samples.interval
               Samples.slots (Samples.state_after Samples.pressed_between_dispatches)
               "INFY" (App.mkStock (num:=Q) "INFY" [] None 3 App.REFRESHING [] None))
    as (st' & s' & Hstep & Hreach & _ & _ & Htwo).
  - apply state_after_reachable. vm_compute. eexists. reflexivity.
  - vm_compute. reflexivity.
  - reflexivity.
  - vm_compute. lia.
  - vm_compute. reflexivity.
  - exists st'. split_and!; assumption.
Defined.

(** The run [Samples.pressed_between_dispatches] in detail.  With two
    symbols and a limiter with three slots the component reaches a state in
    which INFY is REFRESHING with one provider call in flight and a second
    refresh of INFY waits in the scheduler (the button was pressed after TCS
    had come ONLINE and before the first refresh of INFY was admitted).  The
    waiting refresh is then admitted, and two provider calls for INFY are in
    flight. *)
Lemma duplicate_refresh_is_not_ignored :
  ∃ (st st' : App.AppState Q) (s : App.StockState Q),
    App.reachable Samples.symbols Samples.interval Samples.slots st ∧
    App.stockData st !! "INFY" = Some s ∧
    App.status s = App.REFRESHING ∧
    App.refreshes_in_flight "INFY" st = 1 ∧
    App.app_step Samples.symbols Samples.interval Samples.slots App.LimiterDispatches st
      = Some st' ∧
    App.reachable Samples.symbols Samples.interval Samples.slots st' ∧
    App.refreshes_in_flight "INFY" st' = 2.
Proof.
  exists (Samples.state_after Samples.pressed_between_dispatches),
         (Samples.state_after (Samples.pressed_between_dispatches ++ [App.LimiterDispatches])),
         (App.mkStock (num:=Q) "INFY" [] None 3 App.REFRESHING [] None).
  split_and!.
  - apply state_after_reachable. vm_compute. eexists. reflexivity.
  - vm_compute. reflexivity.
  - reflexivity.
  - vm_compute. reflexivity.
  - vm_compute. reflexivity.
  - apply state_after_reachable. vm_compute. eexists. reflexivity.
  - vm_compute. reflexivity.
Qed.

(** * Further properties of the sources *)

Set Warnings "-clear-no-such-hyp".

(** ** The running component: what every reachable state satisfies *)

Section running.
Context {num : Type}.
Variable STOCKS : list string.
Variable REFRESH_INTERVAL_SECONDS : Z.
Variable maxConcurrent : nat.

Implicit Types (st : App.AppState num) (l : ApiRateLimiter.Limiter App.ApiCall).

Lemma schedule_all_queue (actions : list App.ApiCall) l :
  ApiRateLimiter.queue (App.schedule_all actions l) = ApiRateLimiter.queue l ++ actions.
Proof.
  revert l. induction actions as [|a rest IH]; intros l; cbn.
  - by rewrite app_nil_r.
  - unfold App.schedule_all in IH. rewrite IH. cbn. by rewrite <- app_assoc.
Qed.

Lemma schedule_all_inFlight (actions : list App.ApiCall) l :
  ApiRateLimiter.inFlight (App.schedule_all actions l) = ApiRateLimiter.inFlight l.
Proof.
  revert l. induction actions as [|a rest IH]; intros l; cbn; [done|].
  unfold App.schedule_all in IH. by rewrite IH.
Qed.

Lemma dispatch_Some l (action : App.ApiCall) l' :
  ApiRateLimiter.dispatch maxConcurrent l = Some (action, l') →
  ApiRateLimiter.queue l = action :: ApiRateLimiter.queue l' ∧
  ApiRateLimiter.inFlight l' = ApiRateLimiter.inFlight l ++ [action].
Proof.
  unfold ApiRateLimiter.dispatch. destruct (ApiRateLimiter.queue l) as [|first rest]; [done|].
  destruct (_ <? _); intros; by simplify_eq/=.
Qed.

Lemma complete_Some l (action : App.ApiCall) l' :
  ApiRateLimiter.complete action l = Some l' →
  ApiRateLimiter.queue l' = ApiRateLimiter.queue l ∧
  ApiRateLimiter.inFlight l' = ApiRateLimiter.remove_first action (ApiRateLimiter.inFlight l).
Proof. unfold ApiRateLimiter.complete. case_decide; intros; by simplify_eq/=. Qed.

Lemma elem_of_remove_first (a x : App.ApiCall) (actions : list App.ApiCall) :
  x ∈ ApiRateLimiter.remove_first a actions → x ∈ actions.
Proof.
  induction actions as [|b rest IH]; cbn; [done|]. case_decide.
  - intros ?. by apply elem_of_cons; right.
  - intros [->|?]%elem_of_cons; apply elem_of_cons; [by left|right; by apply IH].
Qed.

Lemma elem_of_remove_first_ne (a x : App.ApiCall) (actions : list App.ApiCall) :
  x ≠ a → x ∈ actions → x ∈ ApiRateLimiter.remove_first a actions.
Proof.
  intros Hne. induction actions as [|b rest IH]; cbn; [done|].
  intros [->|Hin]%elem_of_cons.
  - rewrite decide_False by done. by apply elem_of_cons; left.
  - case_decide; [done|]. apply elem_of_cons; right. by apply IH.
Qed.

(** How one event changes the pending calls. *)
Lemma pending_step ev st st' (x : App.ApiCall) :
  App.app_step STOCKS REFRESH_INTERVAL_SECONDS maxConcurrent ev st = Some st' →
  x ∈ App.pending st' →
  x ∈ App.pending st ∨
  match ev with
  | App.ClickRefreshAll => x ∈ App.handleRefreshAll STOCKS
  | App.HeartbeatTick => x ∈ (App.tick (App.stockData st)).2
  | App.SentimentTimerFires => x ∈ App.sentimentTimeout STOCKS (App.stockData st)
  | _ => False
  end.
Proof.
  unfold App.pending. intros Hstep. destruct ev; cbn in Hstep.
  - destruct (App.isRefreshingAll _); simplify_eq/=.
    rewrite schedule_all_queue, schedule_all_inFlight. set_solver.
  - simplify_eq/=. rewrite schedule_all_queue, schedule_all_inFlight. set_solver.
  - simplify_eq/=. rewrite schedule_all_queue, schedule_all_inFlight. set_solver.
  - destruct (ApiRateLimiter.dispatch _ _) as [[action l]|] eqn:Hd; [|done].
    apply dispatch_Some in Hd as [Hq Hf].
    assert (Hcalls : App.calls st' = l) by (destruct action; by simplify_eq/=).
    rewrite Hcalls, Hq, Hf. set_solver.
  - destruct (ApiRateLimiter.complete _ _) as [l|] eqn:Hc; simplify_eq/=.
    apply complete_Some in Hc as [-> ->]. rewrite !elem_of_app.
    intros [?|?%elem_of_remove_first]; eauto.
  - destruct (ApiRateLimiter.complete _ _) as [l|] eqn:Hc; simplify_eq/=.
    apply complete_Some in Hc as [-> ->]. rewrite !elem_of_app.
    intros [?|?%elem_of_remove_first]; eauto.
  - simplify_eq/=. eauto.
  - simplify_eq/=. eauto.
Qed.

(** A pending call stays pending until it settles. *)
Lemma pending_kept ev st st' (x : App.ApiCall) :
  App.app_step STOCKS REFRESH_INTERVAL_SECONDS maxConcurrent ev st = Some st' →
  x ∈ App.pending st →
  match ev with
  | App.SignalSettles symbol _ _ => x = App.FetchSignal symbol ∨ x ∈ App.pending st'
  | App.SentimentSettles signals => x = App.GetMarketSentiment signals ∨ x ∈ App.pending st'
  | _ => x ∈ App.pending st'
  end.
Proof.
  unfold App.pending. intros Hstep. destruct ev; cbn in Hstep.
  - destruct (App.isRefreshingAll _); simplify_eq/=.
    rewrite schedule_all_queue, schedule_all_inFlight. set_solver.
  - simplify_eq/=. rewrite schedule_all_queue, schedule_all_inFlight. set_solver.
  - simplify_eq/=. rewrite schedule_all_queue, schedule_all_inFlight. set_solver.
  - destruct (ApiRateLimiter.dispatch _ _) as [[action l]|] eqn:Hd; [|done].
    apply dispatch_Some in Hd as [Hq Hf].
    assert (Hcalls : App.calls st' = l) by (destruct action; by simplify_eq/=).
    rewrite Hcalls, Hq, Hf. set_solver.
  - destruct (ApiRateLimiter.complete _ _) as [l|] eqn:Hc; simplify_eq/=.
    apply complete_Some in Hc as [-> ->]. rewrite !elem_of_app.
    destruct (decide (x = App.FetchSignal symbol)) as [|Hne]; [by left|].
    intros [?|?]; right; [by left|right; by apply elem_of_remove_first_ne].
  - destruct (ApiRateLimiter.complete _ _) as [l|] eqn:Hc; simplify_eq/=.
    apply complete_Some in Hc as [-> ->]. rewrite !elem_of_app.
    destruct (decide (x = App.GetMarketSentiment signals)) as [|Hne]; [by left|].
    intros [?|?]; right; [by left|right; by apply elem_of_remove_first_ne].
  - by simplify_eq/=.
  - by simplify_eq/=.
Qed.

Lemma dom_initialState :
  dom (App.initialState (num:=num) STOCKS REFRESH_INTERVAL_SECONDS)
  = (list_to_set STOCKS : gset string).
Proof.
  unfold App.initialState.
  assert (Hgen : ∀ acc : gmap string (App.StockState num),
    dom (foldl (λ initialState symbol,
                  <[symbol := App.mkStock symbol [] None REFRESH_INTERVAL_SECONDS
                                App.OFFLINE [] None]> initialState) acc STOCKS)
    = list_to_set STOCKS ∪ dom acc).
  { induction STOCKS as [|symbol rest IH]; intros acc; cbn [foldl].
    - set_solver.
    - rewrite IH, dom_insert_L. set_solver. }
  rewrite Hgen, dom_empty_L. set_solver.
Qed.

Lemma dom_step ev st st' :
  App.app_step STOCKS REFRESH_INTERVAL_SECONDS maxConcurrent ev st = Some st' →
  dom (App.stockData st') = dom (App.stockData st).
Proof.
  intros Hstep. destruct ev; cbn in Hstep.
  - destruct (App.isRefreshingAll _); by simplify_eq/=.
  - simplify_eq/=. apply dom_fmap_L.
  - by simplify_eq/=.
  - destruct (ApiRateLimiter.dispatch _ _) as [[[symbol|signals] l]|]; simplify_eq/=;
      [apply dom_alter_L|done].
  - destruct (ApiRateLimiter.complete _ _); simplify_eq/=.
    destruct result; apply dom_alter_L.
  - destruct (ApiRateLimiter.complete _ _); by simplify_eq/=.
  - simplify_eq/=. apply dom_alter_L.
  - simplify_eq/=. apply dom_fmap_L.
Qed.

(** The store keeps the keys it was created with, and every refresh handed
    to the scheduler is for one of them. *)
Lemma reachable_tracked st :
  App.reachable STOCKS REFRESH_INTERVAL_SECONDS maxConcurrent st →
  dom (App.stockData st) = (list_to_set STOCKS : gset string) ∧
  ∀ symbol, App.FetchSignal symbol ∈ App.pending st → symbol ∈ STOCKS.
Proof.
  apply (reachable_ind STOCKS REFRESH_INTERVAL_SECONDS maxConcurrent
           (λ st, dom (App.stockData st) = (list_to_set STOCKS : gset string) ∧
                  ∀ symbol, App.FetchSignal symbol ∈ App.pending st → symbol ∈ STOCKS)).
  - split; [apply dom_initialState|]. intros symbol. unfold App.pending. cbn.
    rewrite schedule_all_queue, schedule_all_inFlight. cbn. rewrite app_nil_r.
    unfold App.handleRefreshAll. rewrite list_elem_of_fmap_inj; [done|by intros ?? [= ->]].
  - intros ev st0 st1 [Hdom Hcalls] Hstep. split.
    { by rewrite (dom_step _ _ _ Hstep). }
    intros symbol Hin. apply (pending_step _ _ _ _ Hstep) in Hin as [Hin|Hnew]; [by apply Hcalls|].
    destruct ev; try done.
    + unfold App.handleRefreshAll in Hnew.
      by rewrite list_elem_of_fmap_inj in Hnew by (by intros ?? [= ->]).
    + apply elem_of_tick_due in Hnew as (s & Hs & _).
      assert (Hd : symbol ∈ dom (App.stockData st0)) by (apply elem_of_dom; eauto).
      rewrite Hdom in Hd. by apply elem_of_list_to_set in Hd.
    + unfold App.sentimentTimeout in Hnew. cbv zeta in Hnew.
      destruct (_ <? _); [|by apply elem_of_nil in Hnew].
      by apply list_elem_of_singleton in Hnew.
Qed.

End running.

Lemma lookup_initialState {num : Type} (STOCKS : list string)
    (REFRESH_INTERVAL_SECONDS : Z) (symbol : string) :
  App.initialState (num:=num) STOCKS REFRESH_INTERVAL_SECONDS !! symbol
  = if decide (symbol ∈ STOCKS)
    then Some (App.mkStock symbol [] None REFRESH_INTERVAL_SECONDS App.OFFLINE [] None)
    else None.
Proof.
  unfold App.initialState.
  assert (Hgen : ∀ acc : gmap string (App.StockState num),
    foldl (λ initialState symbol,
             <[symbol := App.mkStock symbol [] None REFRESH_INTERVAL_SECONDS
                           App.OFFLINE [] None]> initialState) acc STOCKS !! symbol
    = if decide (symbol ∈ STOCKS)
      then Some (App.mkStock symbol [] None REFRESH_INTERVAL_SECONDS App.OFFLINE [] None)
      else acc !! symbol).
  { induction STOCKS as [|first rest IH]; intros acc; cbn [foldl].
    - rewrite decide_False; [done|]. by intros ?%elem_of_nil.
    - rewrite IH. destruct (decide (symbol ∈ rest)) as [Hrest|Hrest].
      + rewrite decide_True; [done|]. by apply elem_of_cons; right.
      + destruct (decide (symbol = first)) as [->|Hne].
        * rewrite decide_True by (by apply elem_of_cons; left).
          by rewrite lookup_insert_eq.
        * rewrite decide_False by (by intros [?|?]%elem_of_cons).
          by rewrite lookup_insert_ne. }
  rewrite Hgen. by destruct (decide (symbol ∈ STOCKS)).
Qed.

(** X1.  The component starts with one machine per configured symbol,
    stored under the symbol: OFFLINE, without candles, signal, chat or error,
    the countdown at the refresh interval; a symbol listed twice gets one
    machine.  The mount effect hands one refresh per listed symbol to the
    scheduler, in the order of the list.  No updater drops a machine: in
    every state the running component reaches each configured symbol has its
    entry, which carries that symbol, so every card finds its machine. *)
Theorem configured_symbols_have_machines {num : Type} (STOCKS : list string)
    (REFRESH_INTERVAL_SECONDS : Z) (maxConcurrent : nat) (symbol : string) :
  App.initialState (num:=num) STOCKS REFRESH_INTERVAL_SECONDS !! symbol
  = (if decide (symbol ∈ STOCKS)
     then Some (App.mkStock symbol [] None REFRESH_INTERVAL_SECONDS App.OFFLINE [] None)
     else None) ∧
  App.pending (App.mounted (num:=num) STOCKS REFRESH_INTERVAL_SECONDS)
  = App.FetchSignal <$> STOCKS ∧
  ∀ st : App.AppState num,
    App.reachable STOCKS REFRESH_INTERVAL_SECONDS maxConcurrent st →
    symbol ∈ STOCKS →
    ∃ s, App.stockData st !! symbol = Some s ∧ App.symbol s = symbol.
Proof.
  split_and!.
  - apply lookup_initialState.
  - unfold App.pending. cbn. rewrite schedule_all_queue, schedule_all_inFlight. cbn.
    by rewrite app_nil_r.
  - intros st Hreach Hin.
    destruct (reachable_tracked _ _ _ st Hreach) as [Hdom _].
    assert (Hsome : is_Some (App.stockData st !! symbol)).
    { apply elem_of_dom. rewrite Hdom. by apply elem_of_list_to_set. }
    destruct Hsome as [s Hs]. exists s. split; [done|].
    by apply (reachable_keyed _ _ _ st Hreach symbol s).
Qed.

Lemma configured_symbols_have_machines_witness :
  ∃ s, App.stockData (Samples.state_after Samples.one_second_left) !! "INFY" = Some s ∧
       App.symbol s = "INFY".
Proof.
  destruct (configured_symbols_have_machines (num:=Q) Samples.symbols Samples.interval
              Samples.slots "INFY") as (_ & _ & Hkept).
  apply Hkept.
  - apply state_after_reachable. vm_compute. eexists. reflexivity.
  - unfold Samples.symbols. apply elem_of_cons. right. apply elem_of_cons. by left.
Defined.

(** X2.  Every refresh that waits in the scheduler or is in flight is for a
    symbol of the store, so the updaters of [fetchSignal] always find the
    entry they rebuild. *)
Theorem scheduled_refreshes_are_tracked {num : Type} (STOCKS : list string)
    (REFRESH_INTERVAL_SECONDS : Z) (maxConcurrent : nat) (st : App.AppState num)
    (symbol : string) :
  App.reachable STOCKS REFRESH_INTERVAL_SECONDS maxConcurrent st →
  App.FetchSignal symbol ∈ App.pending st →
  symbol ∈ STOCKS ∧ is_Some (App.stockData st !! symbol).
Proof.
  intros Hreach Hin. destruct (reachable_tracked _ _ _ st Hreach) as [Hdom Hcalls].
  split; [by apply Hcalls|]. apply elem_of_dom. rewrite Hdom.
  by apply elem_of_list_to_set, Hcalls.
Qed.

Lemma scheduled_refreshes_are_tracked_witness :
  is_Some (App.stockData (Samples.state_after Samples.pressed_between_dispatches) !! "INFY").
Proof.
  apply (scheduled_refreshes_are_tracked Samples.symbols Samples.interval Samples.slots
           (Samples.state_after Samples.pressed_between_dispatches) "INFY").
  - apply state_after_reachable. vm_compute. eexists. reflexivity.
  - vm_compute. apply elem_of_cons. by left.
Defined.

(** The fields of a machine agree in every reachable state. *)
Lemma reachable_fields_agree {num : Type} (STOCKS : list string)
    (REFRESH_INTERVAL_SECONDS : Z) (maxConcurrent : nat) (st : App.AppState num)
    (symbol : string) (s : App.StockState num) :
  App.reachable STOCKS REFRESH_INTERVAL_SECONDS maxConcurrent st →
  App.stockData st !! symbol = Some s →
  (is_Some (App.error s) → App.status s = App.OFFLINE) ∧
  (App.status s = App.ONLINE → is_Some (App.signal s) ∧ App.error s = None) ∧
  (App.signal s = None → App.candles s = []).
Proof.
  intros Hreach Hs. revert symbol s Hs.
  apply (reachable_every_entry STOCKS REFRESH_INTERVAL_SECONDS maxConcurrent
           (λ _ s, (is_Some (App.error s) → App.status s = App.OFFLINE) ∧
                   (App.status s = App.ONLINE → is_Some (App.signal s) ∧ App.error s = None) ∧
                   (App.signal s = None → App.candles s = []))); [| |done].
  - intros symbol. cbn. split_and!; try done; try (by intros [? ?]).
  - intros key s (Herr & Honline & Hnone).
    split_and!; cbn; try done; try (by intros [? ?]).
    all: unfold App.tick_entry; destruct (App.status s) eqn:Hstatus;
      rewrite ?Hstatus; try eauto.
    all: destruct (Honline eq_refl) as [Hsignal Hnoerr].
    all: destruct (App.countdown s - 1 <=? 0)%Z; cbn; rewrite ?Hnoerr;
      try done; by intros [? ?].
Qed.

(** X3.  In every state the running component reaches the fields of a
    machine agree: an error is recorded only while the machine is OFFLINE, a
    machine that is ONLINE has a signal and no error, and a machine without
    a signal has no candles. *)
Theorem machine_fields_agree {num : Type} (STOCKS : list string)
    (REFRESH_INTERVAL_SECONDS : Z) (maxConcurrent : nat) (st : App.AppState num)
    (symbol : string) (s : App.StockState num) :
  App.reachable STOCKS REFRESH_INTERVAL_SECONDS maxConcurrent st →
  App.stockData st !! symbol = Some s →
  (is_Some (App.error s) → App.status s = App.OFFLINE) ∧
  (App.status s = App.ONLINE → is_Some (App.signal s) ∧ App.error s = None) ∧
  (App.signal s = None → App.candles s = []).
Proof. apply reachable_fields_agree. Qed.

Lemma machine_fields_agree_witness :
  ∃ s, App.stockData (Samples.state_after Samples.one_second_left) !! "TCS" = Some s ∧
       is_Some (App.signal s) ∧ App.error s = None.
Proof.
  eexists. split; [vm_compute; reflexivity|].
  eapply (machine_fields_agree Samples.symbols Samples.interval Samples.slots
            (Samples.state_after Samples.one_second_left) "TCS").
  - apply state_after_reachable. vm_compute. eexists. reflexivity.
  - vm_compute. reflexivity.
  - reflexivity.
Defined.

(** X4.  With a refresh interval that is not negative, the countdown of
    every machine stays between 0 and the interval in every state the
    running component reaches. *)
Theorem countdown_within_interval {num : Type} (STOCKS : list string)
    (REFRESH_INTERVAL_SECONDS : Z) (maxConcurrent : nat) (st : App.AppState num)
    (symbol : string) (s : App.StockState num) :
  (0 ≤ REFRESH_INTERVAL_SECONDS)%Z →
  App.reachable STOCKS REFRESH_INTERVAL_SECONDS maxConcurrent st →
  App.stockData st !! symbol = Some s →
  (0 ≤ App.countdown s ≤ REFRESH_INTERVAL_SECONDS)%Z.
Proof.
  intros Hinterval Hreach Hs. revert symbol s Hs.
  apply (reachable_every_entry STOCKS REFRESH_INTERVAL_SECONDS maxConcurrent
           (λ _ s, (0 ≤ App.countdown s ≤ REFRESH_INTERVAL_SECONDS)%Z)); [| |done].
  - intros symbol. cbn. lia.
  - intros key s Hs. split_and!; cbn; try done; try lia.
    all: unfold App.tick_entry; destruct (App.status s); try lia.
    all: destruct (Z.leb_spec (App.countdown s - 1) 0); cbn; lia.
Qed.

Lemma countdown_within_interval_witness :
  ∃ s, App.stockData (Samples.state_after Samples.one_second_left) !! "TCS" = Some s ∧
       (0 ≤ App.countdown s ≤ 3)%Z.
Proof.
  eexists. split; [vm_compute; reflexivity|].
  eapply (countdown_within_interval Samples.symbols Samples.interval Samples.slots
            (Samples.state_after Samples.one_second_left) "TCS").
  - unfold Samples.interval. lia.
  - apply state_after_reachable. vm_compute. eexists. reflexivity.
  - vm_compute. reflexivity.
Defined.

Section calls_of_refreshing_machines.
Context {num : Type}.
Variable STOCKS : list string.
Variable REFRESH_INTERVAL_SECONDS : Z.
Variable maxConcurrent : nat.

Implicit Types (st : App.AppState num).

(** Every event other than a heartbeat whose updater ran late keeps a call
    pending for each machine that is REFRESHING. *)
Lemma refreshing_call_step ev st st' :
  ev ≠ App.HeartbeatTickLate →
  App.app_step STOCKS REFRESH_INTERVAL_SECONDS maxConcurrent ev st = Some st' →
  (∀ symbol s, App.stockData st !! symbol = Some s → App.status s = App.REFRESHING →
     App.FetchSignal symbol ∈ App.pending st) →
  ∀ symbol s, App.stockData st' !! symbol = Some s → App.status s = App.REFRESHING →
    App.FetchSignal symbol ∈ App.pending st'.
Proof.
  intros Hev Hstep IH symbol s Hs Hstatus.
  pose proof (λ x, pending_kept STOCKS REFRESH_INTERVAL_SECONDS maxConcurrent
                     ev st st' x Hstep) as Hkept.
  destruct ev; cbn in Hstep.
  - destruct (App.isRefreshingAll _); simplify_eq/=. by eapply Hkept, IH.
  - simplify_eq/=. rewrite lookup_fmap in Hs.
    destruct (App.stockData st !! symbol) as [s0|] eqn:Hs0; [|done].
    injection Hs as <-. unfold App.pending. cbn.
    rewrite schedule_all_queue, schedule_all_inFlight.
    unfold App.tick_entry in Hstatus. destruct (App.status s0) eqn:Hstatus0.
    + by rewrite Hstatus0 in Hstatus.
    + destruct (App.countdown s0 - 1 <=? 0)%Z eqn:Hdue; cbn in Hstatus; [|done].
      rewrite !elem_of_app. left. right.
      apply (elem_of_tick_due (App.stockData st)). exists s0. split; [done|].
      unfold App.tick_due. by rewrite Hstatus0, Hdue.
    + specialize (IH symbol s0 Hs0 Hstatus0). unfold App.pending in IH.
      rewrite !elem_of_app in *. destruct IH; eauto.
  - simplify_eq/=. by eapply Hkept, IH.
  - destruct (ApiRateLimiter.dispatch _ _) as [[action l]|] eqn:Hd; [|done].
    apply dispatch_Some in Hd as [Hq Hf].
    destruct action as [started|signals]; simplify_eq/=.
    + destruct (decide (started = symbol)) as [->|Hne].
      * unfold App.pending. cbn. rewrite Hf, !elem_of_app.
        right. right. by apply list_elem_of_singleton.
      * unfold App.fetchSignal_begin in Hs. rewrite lookup_alter_ne in Hs by done.
        by eapply Hkept, IH.
    + by eapply Hkept, IH.
  - destruct (ApiRateLimiter.complete _ _) as [l|] eqn:Hc; simplify_eq/=.
    destruct (decide (symbol0 = symbol)) as [->|Hne].
    + exfalso. destruct result as [error|signal]; cbn in Hs;
        [unfold App.fetchSignal_rejected in Hs|unfold App.fetchSignal_resolved in Hs];
        rewrite lookup_alter_eq in Hs;
        destruct (App.stockData st !! symbol); simplify_eq/=.
    + assert (Hold : App.stockData st !! symbol = Some s).
      { destruct result as [error|signal]; cbn in Hs;
          [unfold App.fetchSignal_rejected in Hs|unfold App.fetchSignal_resolved in Hs];
          by rewrite lookup_alter_ne in Hs. }
      destruct (Hkept _ (IH symbol s Hold Hstatus)) as [[= ?]|?]; done.
  - destruct (ApiRateLimiter.complete _ _) as [l|] eqn:Hc; simplify_eq/=.
    destruct (Hkept _ (IH symbol s Hs Hstatus)) as [[= ?]|?]; done.
  - simplify_eq/=. unfold App.setChatHistory in Hs.
    rewrite lookup_alter in Hs. case_decide.
    + subst. destruct (App.stockData st !! symbol) as [s0|] eqn:Hs0; simplify_eq/=.
      by eapply (Hkept _ (IH symbol s0 Hs0 Hstatus)).
    + by eapply (Hkept _ (IH symbol s Hs Hstatus)).
  - done.
Qed.

Lemma refreshing_call_run (evs : list (App.AppEvent num)) st0 st :
  App.HeartbeatTickLate ∉ evs →
  App.app_run STOCKS REFRESH_INTERVAL_SECONDS maxConcurrent evs st0 = Some st →
  (∀ symbol s, App.stockData st0 !! symbol = Some s → App.status s = App.REFRESHING →
     App.FetchSignal symbol ∈ App.pending st0) →
  ∀ symbol s, App.stockData st !! symbol = Some s → App.status s = App.REFRESHING →
    App.FetchSignal symbol ∈ App.pending st.
Proof.
  revert st0. induction evs as [|ev evs IH]; intros st0 Hlate Hrun Hst0; cbn in Hrun.
  - by simplify_eq.
  - destruct (App.app_step _ _ _ ev st0) as [st1|] eqn:Hst1; [|done]. cbn in Hrun.
    apply (IH st1); [by intros ?; apply Hlate, elem_of_cons; right|done|].
    apply (refreshing_call_step ev st0 st1); [|done..].
    intros ->. apply Hlate, elem_of_cons. by left.
Qed.

(** A heartbeat whose updater ran late marks the machines that are due
    and leaves the scheduler as it was. *)
Lemma late_tick_marks_only st (symbol : string) (s : App.StockState num) :
  App.stockData st !! symbol = Some s →
  App.status s = App.ONLINE →
  (App.countdown s ≤ 1)%Z →
  ∃ st' s',
    App.app_step STOCKS REFRESH_INTERVAL_SECONDS maxConcurrent App.HeartbeatTickLate st
      = Some st' ∧
    App.stockData st' !! symbol = Some s' ∧
    App.status s' = App.REFRESHING ∧
    App.pending st' = App.pending st.
Proof.
  intros Hs Hstatus Hdue. eexists _, _. split; [reflexivity|]. cbn.
  rewrite lookup_fmap, Hs. cbn. split_and!; [done| |done].
  unfold App.tick_entry. rewrite Hstatus.
  destruct (Z.leb_spec (App.countdown s - 1) 0); [done|lia].
Qed.

End calls_of_refreshing_machines.

(** X5.  As long as every heartbeat updater ran inside its call of
    [setStockData], a machine that is REFRESHING has a refresh of its symbol
    waiting in the scheduler or in flight.  A heartbeat whose updater React
    ran later finds [symbolsToFetch] empty: the machines that are due become
    REFRESHING and nothing is handed to the scheduler for them.  The
    scheduler is the one modelled from the specification. *)
Theorem refreshing_machine_has_a_call {num : Type} (STOCKS : list string)
    (REFRESH_INTERVAL_SECONDS : Z) (maxConcurrent : nat)
    (evs : list (App.AppEvent num)) (st : App.AppState num)
    (symbol : string) (s : App.StockState num) :
  App.HeartbeatTickLate ∉ evs →
  App.app_run STOCKS REFRESH_INTERVAL_SECONDS maxConcurrent evs
    (App.mounted STOCKS REFRESH_INTERVAL_SECONDS) = Some st →
  App.stockData st !! symbol = Some s →
  (App.status s = App.REFRESHING → App.FetchSignal symbol ∈ App.pending st) ∧
  (App.status s = App.ONLINE → (App.countdown s ≤ 1)%Z →
   ∃ st' s',
     App.app_step STOCKS REFRESH_INTERVAL_SECONDS maxConcurrent App.HeartbeatTickLate st
       = Some st' ∧
     App.stockData st' !! symbol = Some s' ∧
     App.status s' = App.REFRESHING ∧
     App.pending st' = App.pending st).
Proof.
  intros Hlate Hrun Hs. split.
  - intros Hstatus.
    apply (refreshing_call_run STOCKS REFRESH_INTERVAL_SECONDS maxConcurrent evs
             (App.mounted STOCKS REFRESH_INTERVAL_SECONDS) st Hlate Hrun) with s;
      [|done..].
    intros symbol0 s0 Hs0 Hstatus0. exfalso.
    pose proof (every_entry_initialState (num:=num) STOCKS REFRESH_INTERVAL_SECONDS
                  (λ _ s, App.status s = App.OFFLINE)) as Hinit.
    rewrite (Hinit (λ _, eq_refl) symbol0 s0 Hs0) in Hstatus0. done.
  - intros Hstatus Hdue. by apply (late_tick_marks_only _ _ _ st symbol s).
Qed.

Lemma refreshing_machine_has_a_call_witness :
  App.FetchSignal "INFY"
  ∈ App.pending (Samples.state_after Samples.pressed_between_dispatches).
Proof.
  destruct (refreshing_machine_has_a_call Samples.symbols Samples.interval Samples.slots
              Samples.pressed_between_dispatches
              (Samples.state_after Samples.pressed_between_dispatches) "INFY"
              (App.mkStock (num:=Q) "INFY" [] None 3 App.REFRESHING [] None))
    as [Hcall _].
  - unfold Samples.pressed_between_dispatches. intros Hin.
    repeat (apply elem_of_cons in Hin as [Hin|Hin]; [discriminate Hin|]).
    by apply elem_of_nil in Hin.
  - vm_compute. reflexivity.
  - vm_compute. reflexivity.
  - by apply Hcall.
Defined.

Section stranded_machines.
Context {num : Type}.
Variable STOCKS : list string.
Variable REFRESH_INTERVAL_SECONDS : Z.
Variable maxConcurrent : nat.

Implicit Types (st : App.AppState num).

(** No event takes a machine out of REFRESHING, or schedules a refresh for
    it, while no refresh of its symbol is pending. *)
Lemma stranded_step ev st st' (symbol : string) (s : App.StockState num) :
  App.stockData st !! symbol = Some s →
  App.status s = App.REFRESHING →
  App.FetchSignal symbol ∉ App.pending st →
  App.app_step STOCKS REFRESH_INTERVAL_SECONDS maxConcurrent ev st = Some st' →
  ∃ s', App.stockData st' !! symbol = Some s' ∧
        App.status s' = App.REFRESHING ∧
        App.FetchSignal symbol ∉ App.pending st'.
Proof.
  intros Hs Hstatus Hnone Hstep.
  assert (Hnone' : App.FetchSignal symbol ∉ App.pending st').
  { intros Hin.
    apply (pending_step STOCKS REFRESH_INTERVAL_SECONDS maxConcurrent _ _ _ _ Hstep)
      in Hin as [?|Hnew]; [done|].
    destruct ev; try done.
    - cbn in Hstep. by rewrite (isRefreshingAll_true _ _ _ Hs Hstatus) in Hstep.
    - apply elem_of_tick_due in Hnew as (s0 & Hs0 & Hdue). simplify_eq.
      unfold App.tick_due in Hdue. by rewrite Hstatus in Hdue.
    - unfold App.sentimentTimeout in Hnew. cbv zeta in Hnew.
      destruct (_ <? _); [|by apply elem_of_nil in Hnew].
      by apply list_elem_of_singleton in Hnew. }
  assert (Htick : App.tick_entry s = s).
  { unfold App.tick_entry. by rewrite Hstatus. }
  destruct ev; cbn in Hstep.
  - destruct (App.isRefreshingAll _); simplify_eq/=. by exists s.
  - simplify_eq/=. exists s. split_and!; [|done..].
    rewrite lookup_fmap, Hs. cbn. by rewrite Htick.
  - simplify_eq/=. by exists s.
  - destruct (ApiRateLimiter.dispatch _ _) as [[action l]|] eqn:Hd; [|done].
    apply dispatch_Some in Hd as [Hq Hf].
    assert (Hne : action ≠ App.FetchSignal symbol).
    { intros ->. apply Hnone. unfold App.pending. rewrite Hq. set_solver. }
    destruct action as [started|signals]; simplify_eq/=; exists s.
    + unfold App.fetchSignal_begin. rewrite lookup_alter_ne by congruence. done.
    + done.
  - destruct (ApiRateLimiter.complete _ _) as [l|] eqn:Hc; simplify_eq/=.
    assert (Hne : symbol0 ≠ symbol).
    { intros ->. apply Hnone. unfold ApiRateLimiter.complete in Hc.
      case_decide as Hin; [|done]. unfold App.pending. set_solver. }
    exists s. destruct result; cbn;
      unfold App.fetchSignal_rejected, App.fetchSignal_resolved;
      by rewrite lookup_alter_ne.
  - destruct (ApiRateLimiter.complete _ _) as [l|] eqn:Hc; simplify_eq/=. by exists s.
  - simplify_eq/=. unfold App.setChatHistory. rewrite lookup_alter. case_decide.
    + subst. rewrite Hs. cbn. by eexists.
    + by exists s.
  - simplify_eq/=. exists s. split_and!; [|done..].
    rewrite lookup_fmap, Hs. cbn. by rewrite Htick.
Qed.

End stranded_machines.

(** X24.  A machine that is REFRESHING while no refresh of its symbol waits
    in the scheduler or is in flight stays so whatever happens next: no
    event takes it out of REFRESHING or schedules a refresh for it, and the
    Refresh All button stays disabled.  A heartbeat whose updater ran late
    leaves the machines that were due in this situation.  The scheduler is
    the one modelled from the specification. *)
Theorem stranded_machine_stays {num : Type} (STOCKS : list string)
    (REFRESH_INTERVAL_SECONDS : Z) (maxConcurrent : nat)
    (evs : list (App.AppEvent num)) (st st' : App.AppState num)
    (symbol : string) (s : App.StockState num) :
  App.stockData st !! symbol = Some s →
  App.status s = App.REFRESHING →
  App.FetchSignal symbol ∉ App.pending st →
  App.app_run STOCKS REFRESH_INTERVAL_SECONDS maxConcurrent evs st = Some st' →
  ∃ s', App.stockData st' !! symbol = Some s' ∧
        App.status s' = App.REFRESHING ∧
        (App.FetchSignal symbol ∉ App.pending st') ∧
        App.app_step STOCKS REFRESH_INTERVAL_SECONDS maxConcurrent App.ClickRefreshAll st'
        = None.
Proof.
  revert st s. induction evs as [|ev evs IH]; intros st s Hs Hstatus Hnone Hrun;
    cbn in Hrun.
  - simplify_eq. exists s. split_and!; [done..|].
    cbn. by rewrite (isRefreshingAll_true _ _ _ Hs Hstatus).
  - destruct (App.app_step _ _ _ ev st) as [st1|] eqn:Hstep; [|done]. cbn in Hrun.
    destruct (stranded_step _ _ _ _ _ _ _ _ Hs Hstatus Hnone Hstep)
      as (s1 & Hs1 & Hstatus1 & Hnone1).
    by apply (IH st1 s1).
Qed.

Lemma stranded_machine_stays_witness :
  App.reachable Samples.symbols Samples.interval Samples.slots
    (Samples.state_after Samples.late_third_tick) ∧
  App.app_step Samples.symbols Samples.interval Samples.slots App.ClickRefreshAll
    (Samples.state_after (Samples.late_third_tick ++ [App.HeartbeatTick; App.HeartbeatTick]))
  = None.
Proof.
  split.
  - apply state_after_reachable. vm_compute. eexists. reflexivity.
  - destruct (stranded_machine_stays Samples.symbols Samples.interval Samples.slots
                [App.HeartbeatTick; App.HeartbeatTick]
                (Samples.state_after Samples.late_third_tick)
                (Samples.state_after
                   (Samples.late_third_tick ++ [App.HeartbeatTick; App.HeartbeatTick]))
                "TCS"
                (App.mkStock (num:=Q) "TCS" [Samples.candle 100] (Some Samples.buy) 0
                   App.REFRESHING [] None))
      as (s' & _ & _ & _ & Hbutton).
    + vm_compute. reflexivity.
    + reflexivity.
    + vm_compute. intros Hin. by apply elem_of_nil in Hin.
    + vm_compute. reflexivity.
    + exact Hbutton.
Defined.

(** ** Refreshes and chats on the store *)

(** X6.  A refresh that succeeds leaves the machine ONLINE with the new
    candles, the new signal, the countdown at the configured interval and no
    error, and keeps its symbol and chat transcript; whether it succeeds or
    fails, the entry of every other symbol is as it was before. *)
Theorem successful_refresh_spec {num : Type} (REFRESH_INTERVAL_SECONDS : Z)
    (symbol : string) (newCandles : list (Candle num)) (signal : App.Signal)
    (prev : gmap string (App.StockState num)) (before : App.StockState num) :
  prev !! symbol = Some before →
  App.fetchSignal_settled REFRESH_INTERVAL_SECONDS symbol newCandles (inr signal)
    (App.fetchSignal_begin symbol prev) !! symbol
  = Some {| App.symbol := App.symbol before;
            App.candles := newCandles;
            App.signal := Some signal;
            App.countdown := REFRESH_INTERVAL_SECONDS;
            App.status := App.ONLINE;
            App.chatHistory := App.chatHistory before;
            App.error := None |} ∧
  ∀ result other,
    other ≠ symbol →
    App.fetchSignal_settled REFRESH_INTERVAL_SECONDS symbol newCandles result
      (App.fetchSignal_begin symbol prev) !! other
    = prev !! other.
Proof.
  intros Hbefore. split.
  - cbn. unfold App.fetchSignal_resolved, App.fetchSignal_begin.
    by rewrite !lookup_alter_eq, Hbefore.
  - intros result other Hother.
    destruct result; cbn;
      unfold App.fetchSignal_rejected, App.fetchSignal_resolved, App.fetchSignal_begin;
      by rewrite !lookup_alter_ne.
Qed.

Lemma successful_refresh_spec_witness :
  App.status
    <$> App.fetchSignal_settled 60 "TCS" [Samples.candle 100] (inr Samples.buy)
          (App.fetchSignal_begin "TCS"
             {[ "TCS" := App.mkStock (num:=Q) "TCS" [] None 60 App.OFFLINE [] None ]})
        !! "TCS"
  = Some App.ONLINE.
Proof.
  destruct (successful_refresh_spec (num:=Q) 60 "TCS" [Samples.candle 100] Samples.buy
              {[ "TCS" := App.mkStock (num:=Q) "TCS" [] None 60 App.OFFLINE [] None ]}
              (App.mkStock (num:=Q) "TCS" [] None 60 App.OFFLINE [] None))
    as [Hentry _]; [reflexivity|].
  by rewrite Hentry.
Defined.

(** X7.  A tick on a store in which no machine is ONLINE changes nothing
    and hands nothing to the scheduler. *)
Theorem idle_tick_is_noop {num : Type} (prevData : gmap string (App.StockState num)) :
  (∀ symbol s, prevData !! symbol = Some s → App.status s ≠ App.ONLINE) →
  App.tick prevData = (prevData, []).
Proof.
  intros Hidle. unfold App.tick. f_equal.
  - apply map_eq. intros symbol. rewrite lookup_fmap.
    destruct (prevData !! symbol) as [s|] eqn:Hs; [|done]. cbn. f_equal.
    unfold App.tick_entry. specialize (Hidle symbol s Hs). by destruct (App.status s).
  - apply elem_of_nil_inv. intros call Hcall.
    apply list_elem_of_fmap in Hcall as (symbol & -> & Hin).
    apply list_elem_of_fmap in Hin as ([key s] & -> & Hin).
    apply list_elem_of_filter in Hin as [Hdue Hin].
    apply elem_of_map_to_list in Hin. specialize (Hidle key s Hin).
    unfold App.tick_due in Hdue. cbn in Hdue.
    destruct (bool_decide_reflect (App.status s = App.ONLINE)); [done|].
    by cbn in Hdue.
Qed.

Lemma idle_tick_is_noop_witness :
  App.tick (App.initialState (num:=Q) Samples.symbols Samples.interval)
  = (App.initialState Samples.symbols Samples.interval, []).
Proof.
  apply idle_tick_is_noop. intros symbol s Hs.
  pose proof (every_entry_initialState (num:=Q) Samples.symbols Samples.interval
                (λ _ s, App.status s = App.OFFLINE) (λ _, eq_refl) symbol s Hs) as Hoff.
  cbn in Hoff. by rewrite Hoff.
Defined.

(** X8.  [handleSendMessage] does nothing while a chat is loading.
    Otherwise the provider is asked with the transcript followed by the
    user's message, the store shows that history followed by the loading
    placeholder meanwhile, and once the provider settles the transcript is
    that history followed by the answer, or by the user-facing message of
    the failure flagged as an error; the placeholder is gone, and the other
    fields of the entry are those of the store at that moment. *)
Theorem chat_exchange_spec {num : Type} (symbol message : string)
    (stockData : gmap string (App.StockState num)) (s : App.StockState num)
    (result : GeminiService.JsError + string) :
  stockData !! symbol = Some s →
  let currentHistory := App.chatHistory s ++ [App.userChatMessage message] in
  let answer :=
    match result with
    | inr responseText => App.modelChatMessage responseText
    | inl error => App.errorChatMessage (App.userMessage error)
    end in
  App.handleSendMessage_begin true symbol message stockData = None ∧
  (∃ started,
     App.handleSendMessage_begin false symbol message stockData
       = Some (currentHistory, started) ∧
     started !! symbol
       = Some (App.chat_entry (currentHistory ++ [App.loadingMessage]) s)) ∧
  ∀ (prev : gmap string (App.StockState num)) (entry : App.StockState num),
    prev !! symbol = Some entry →
    App.handleSendMessage_settled symbol currentHistory result prev !! symbol
    = Some (App.chat_entry (App.chatHistory s ++ [App.userChatMessage message; answer])
              entry).
Proof.
  intros Hs. cbv zeta. split_and!; [done| |].
  - unfold App.handleSendMessage_begin. rewrite Hs. cbn. eexists. split; [done|].
    unfold App.setChatHistory. by rewrite lookup_alter_eq, Hs.
  - intros prev entry Hentry.
    destruct result; cbn; unfold App.setChatHistory;
      by rewrite lookup_alter_eq, Hentry, <- app_assoc.
Qed.

Lemma chat_exchange_spec_witness :
  App.handleSendMessage_settled "TCS" [App.userChatMessage "Why buy?"]
    (inr "Momentum is strong.")
    {[ "TCS" := App.mkStock (num:=Q) "TCS" [] (Some Samples.buy) 60 App.ONLINE
                  [App.userChatMessage "Why buy?"; App.loadingMessage] None ]}
    !! "TCS"
  = Some (App.mkStock (num:=Q) "TCS" [] (Some Samples.buy) 60 App.ONLINE
            [App.userChatMessage "Why buy?"; App.modelChatMessage "Momentum is strong."]
            None).
Proof.
  destruct (chat_exchange_spec (num:=Q) "TCS" "Why buy?"
              {[ "TCS" := App.mkStock (num:=Q) "TCS" [] (Some Samples.buy) 60 App.ONLINE
                            [] None ]}
              (App.mkStock (num:=Q) "TCS" [] (Some Samples.buy) 60 App.ONLINE [] None)
              (inr "Momentum is strong.")) as (_ & _ & Hsettled); [reflexivity|].
  etrans; [apply Hsettled; reflexivity|reflexivity].
Defined.

(** X9.  Writing a chat transcript commutes with every step of a refresh
    and with the tick: an answer of the chat provider never undoes a refresh
    that settled meanwhile, and a refresh never undoes a chat. *)
Theorem chat_commutes_with_refresh {num : Type} (REFRESH_INTERVAL_SECONDS : Z)
    (symbol refreshed : string) (history : list App.ChatMessage)
    (newCandles : list (Candle num)) (result : GeminiService.JsError + App.Signal)
    (prev : gmap string (App.StockState num)) :
  App.setChatHistory symbol history (App.fetchSignal_begin refreshed prev)
  = App.fetchSignal_begin refreshed (App.setChatHistory symbol history prev) ∧
  App.setChatHistory symbol history
    (App.fetchSignal_settled REFRESH_INTERVAL_SECONDS refreshed newCandles result prev)
  = App.fetchSignal_settled REFRESH_INTERVAL_SECONDS refreshed newCandles result
      (App.setChatHistory symbol history prev) ∧
  App.setChatHistory symbol history (App.tick prev).1
  = (App.tick (App.setChatHistory symbol history prev)).1.
Proof.
  assert (Hcommute : ∀ f : App.StockState num → App.StockState num,
    (∀ s, App.chat_entry history (f s) = f (App.chat_entry history s)) →
    alter (App.chat_entry history) symbol (alter f refreshed prev)
    = alter f refreshed (alter (App.chat_entry history) symbol prev)).
  { intros f Hf. apply map_eq. intros key. rewrite !lookup_alter.
    repeat case_decide; subst; rewrite ?lookup_alter_eq, ?lookup_alter_ne by done;
      try done.
    destruct (prev !! key); cbn; [|done]. by rewrite Hf. }
  split_and!.
  - by apply Hcommute.
  - destruct result; by apply Hcommute.
  - cbn. unfold App.setChatHistory. apply map_eq. intros key.
    rewrite lookup_fmap, !lookup_alter. case_decide; rewrite lookup_fmap; [|done].
    destruct (prev !! symbol) as [s|]; cbn; [|done]. f_equal.
    unfold App.tick_entry. cbn. destruct (App.status s); [done| |done].
    by destruct (App.countdown s - 1 <=? 0)%Z.
Qed.

(** ** Strings *)

Section strings.
Import GeminiService.

Lemma append_nil (t : string) : EmptyString +:+ t = t.
Proof. reflexivity. Qed.

Lemma append_cons (ch : ascii) (s t : string) : String ch s +:+ t = String ch (s +:+ t).
Proof. reflexivity. Qed.

Lemma string_length_app (a b : string) :
  String.length (a +:+ b) = String.length a + String.length b.
Proof.
  induction a as [|ch a IH]; [done|]. rewrite append_cons. cbn. by rewrite IH.
Qed.

Lemma toLowerCase_app (a b : string) :
  toLowerCase (a +:+ b) = toLowerCase a +:+ toLowerCase b.
Proof.
  induction a as [|ch a IH]; [done|]. rewrite append_cons. cbn [toLowerCase].
  by rewrite IH, append_cons.
Qed.

Lemma prefix_app (sub post : string) : String.prefix sub (sub +:+ post) = true.
Proof.
  induction sub as [|ch sub IH]; [by destruct post|]. rewrite append_cons. cbn.
  by destruct (ascii_dec ch ch).
Qed.

Lemma prefix_inv (sub s : string) :
  String.prefix sub s = true → ∃ post, s = sub +:+ post.
Proof.
  revert s. induction sub as [|ch sub IH]; intros s.
  - intros _. by exists s.
  - destruct s as [|ch' s]; [done|]. cbn.
    destruct (ascii_dec ch ch') as [->|]; [|done].
    intros [post ->]%IH. by exists post.
Qed.

Lemma prefix_cons (a b : ascii) (s1 s2 : string) :
  String.prefix (String a s1) (String b s2)
  = if ascii_dec a b then String.prefix s1 s2 else false.
Proof. reflexivity. Qed.

(** Text that does not open with [json] does not do so either once a
    closing fence is appended. *)
Lemma prefix_json_fence (body : string) :
  String.prefix "json" body = false → String.prefix "json" (body +:+ "```") = false.
Proof.
  destruct body as [|c1 [|c2 [|c3 [|c4 body]]]];
    rewrite ?append_cons, ?append_nil, ?prefix_cons; intros Hjson;
    repeat (match goal with
            | |- context [ascii_dec ?a ?b] => destruct (ascii_dec a b) as [?|?]
            end; try done).
  all: try (rewrite ?prefix_cons in Hjson;
    repeat (match type of Hjson with
            | context [ascii_dec ?a ?b] => destruct (ascii_dec a b) as [?|?]
            end; try done)).
  all: by destruct body.
Qed.

(** [includes] holds exactly of the strings that contain the text sought. *)
Lemma includes_spec (s sub : string) :
  includes s sub = true ↔ ∃ pre post, s = pre +:+ sub +:+ post.
Proof.
  split.
  - induction s as [|ch s IH]; cbn [includes].
    + destruct (String.prefix sub EmptyString) eqn:Hp; [|done].
      intros _. apply prefix_inv in Hp as [post Hpost]. by exists EmptyString, post.
    + destruct (String.prefix sub (String ch s)) eqn:Hp.
      * intros _. apply prefix_inv in Hp as [post Hpost]. by exists EmptyString, post.
      * intros (pre & post & ->)%IH. by exists (String ch pre), post.
  - intros (pre & post & ->). induction pre as [|ch pre IH].
    + rewrite append_nil. destruct (sub +:+ post) as [|ch rest] eqn:Heq;
        cbn [includes]; rewrite <- Heq; by rewrite prefix_app.
    + rewrite append_cons. cbn [includes]. by destruct (String.prefix sub _).
Qed.

Lemma substring_skip (a s : string) (m : nat) :
  String.substring (String.length a) m (a +:+ s) = String.substring 0 m s.
Proof. induction a as [|ch a IH]; [done|]. rewrite append_cons. cbn. apply IH. Qed.

Lemma substring_prefix (b c : string) :
  String.substring 0 (String.length b) (b +:+ c) = b.
Proof.
  induction b as [|ch b IH]; [by destruct c|]. rewrite append_cons. cbn. by rewrite IH.
Qed.

(** [substring] returns the text between a head and a tail of known
    lengths. *)
Lemma substring_between (a b c : string) :
  substring (Z.of_nat (String.length a))
            (Z.of_nat (String.length (a +:+ b +:+ c)) - Z.of_nat (String.length c))
            (a +:+ b +:+ c)
  = b.
Proof.
  unfold substring. cbv zeta. rewrite !string_length_app.
  replace (Z.min (Z.min (Z.max (Z.of_nat (String.length a)) 0) _) _)
    with (Z.of_nat (String.length a)) by lia.
  replace (Z.max (Z.min (Z.max (Z.of_nat (String.length a)) 0) _) _)
    with (Z.of_nat (String.length a + String.length b)) by lia.
  replace (Z.to_nat (Z.of_nat (String.length a + String.length b)
                     - Z.of_nat (String.length a)))
    with (String.length b) by lia.
  rewrite Nat2Z.id, substring_skip. apply substring_prefix.
Qed.

End strings.

(** ** Reading and classifying provider answers *)

(** X10.  The invalid-key message wins over every other classification and
    does not depend on letter case: an error of any class whose message
    contains the words "API key not valid", in whatever case, is reported by
    [handleApiError] with the invalid-API-key message, its raw message
    kept. *)
Theorem invalid_key_marker_wins (cls : GeminiService.ErrorClass)
    (pre marker post : string) :
  GeminiService.toLowerCase marker = "api key not valid" →
  GeminiService.handleApiError (GeminiService.Native cls (Some (pre +:+ marker +:+ post)))
  = GeminiService.AIError (pre +:+ marker +:+ post) GeminiService.invalid_key_message.
Proof.
  intros Hmarker. unfold GeminiService.handleApiError.
  cbn [GeminiService.lowered_message GeminiService.message default from_option id].
  rewrite !toLowerCase_app, Hmarker.
  assert (Hincl : GeminiService.includes
            (GeminiService.toLowerCase pre +:+ "api key not valid"
               +:+ GeminiService.toLowerCase post) "api key not valid" = true)
    by (apply includes_spec; eauto).
  by rewrite Hincl.
Qed.

Lemma invalid_key_marker_wins_witness :
  GeminiService.handleApiError
    (GeminiService.Native GeminiService.TypeError
       (Some "[429] API KEY NOT VALID. Please pass a valid API key."))
  = GeminiService.AIError "[429] API KEY NOT VALID. Please pass a valid API key."
      GeminiService.invalid_key_message.
Proof.
  apply (invalid_key_marker_wins GeminiService.TypeError "[429] " "API KEY NOT VALID"
           ". Please pass a valid API key.").
  reflexivity.
Defined.

(** X11.  What [getStockSignal] returns has been checked: it is the parsed
    answer of the provider, a JSON object with a truthy [type], a truthy
    [reason] and an array under [news].  The value of [type] is not compared
    with BUY, SELL and HOLD. *)
Theorem returned_signal_is_checked (trim : string → string)
    (JSON_parse : string → string + GeminiService.Json) (null_read_message : string)
    (response : GeminiService.GenerateContent) (parsedJson : GeminiService.Json) :
  GeminiService.getStockSignal trim JSON_parse null_read_message response = inr parsedJson →
  ∃ text members items,
    response = GeminiService.Responds text ∧
    JSON_parse (GeminiService.strip_fences trim text) = inr parsedJson ∧
    parsedJson = GeminiService.JObject members ∧
    GeminiService.truthy (GeminiService.property parsedJson "type") = true ∧
    GeminiService.truthy (GeminiService.property parsedJson "reason") = true ∧
    GeminiService.property parsedJson "news" = Some (GeminiService.JArray items).
Proof.
  unfold GeminiService.getStockSignal. destruct response as [error|text]; [done|].
  unfold GeminiService.read_response.
  destruct (JSON_parse (GeminiService.strip_fences trim text)) as [syntax|value] eqn:Hparse;
    [done|].
  destruct value as [| | | | |members]; try done;
    try (cbn; intros [= <-]; done).
  destruct (GeminiService.truthy (GeminiService.property _ "type")) eqn:Htype; [|done].
  destruct (GeminiService.truthy (GeminiService.property _ "reason")) eqn:Hreason; [|done].
  destruct (GeminiService.property (GeminiService.JObject members) "news")
    as [[| | | |items|]|] eqn:Hnews; try done.
  cbn. intros [= <-]. by exists text, members, items.
Qed.

Lemma returned_signal_is_checked_witness :
  ∃ members,
    GeminiService.JObject
      [("type", GeminiService.JString "MAYBE"); ("reason", GeminiService.JString "r");
       ("news", GeminiService.JArray [])]
    = GeminiService.JObject members.
Proof.
  destruct (returned_signal_is_checked GeminiService.trim_nothing
              (λ _, inr (GeminiService.JObject
                           [("type", GeminiService.JString "MAYBE");
                            ("reason", GeminiService.JString "r");
                            ("news", GeminiService.JArray [])]))
              GeminiService.v8_null_read_message (GeminiService.Responds "{}")
              (GeminiService.JObject
                 [("type", GeminiService.JString "MAYBE");
                  ("reason", GeminiService.JString "r");
                  ("news", GeminiService.JArray [])]))
    as (text & members & items & _ & _ & Hobject & _); [reflexivity|].
  by exists members.
Defined.

(** X12.  Markdown fences are removed around the answer: a trimmed answer
    that opens with [```json] or with [```] and closes with [```] is read as
    the trimmed text between the fences, and an answer that does not open
    with a fence is only trimmed. *)
Theorem strip_fences_spec (trim : string → string) (text body : string) :
  (trim text = "```json" +:+ body +:+ "```" →
   GeminiService.strip_fences trim text = trim body) ∧
  (trim text = "```" +:+ body +:+ "```" → String.prefix "json" body = false →
   GeminiService.strip_fences trim text = trim body) ∧
  (String.prefix "```" (trim text) = false →
   GeminiService.strip_fences trim text = trim text).
Proof.
  unfold GeminiService.strip_fences. cbv zeta. split_and!.
  - intros ->. rewrite (prefix_app "```json").
    f_equal. exact (substring_between "```json" body "```").
  - intros -> Hjson.
    assert (Hnot : String.prefix "```json" ("```" +:+ body +:+ "```") = false).
    { change ("```json") with ("```" +:+ "json").
      change ("```" +:+ body +:+ "```") with ("```" +:+ (body +:+ "```")).
      rewrite !append_cons, !append_nil, !prefix_cons.
      repeat (destruct (ascii_dec _ _); [|done]).
      by apply prefix_json_fence. }
    rewrite Hnot, (prefix_app "```").
    f_equal. exact (substring_between "```" body "```").
  - intros Hplain.
    assert (Hnot : String.prefix "```json" (trim text) = false).
    { destruct (String.prefix "```json" (trim text)) eqn:Hp; [|done].
      apply prefix_inv in Hp as [post Heq]. rewrite Heq in Hplain.
      change ("```json" +:+ post) with ("```" +:+ ("json" +:+ post)) in Hplain.
      by rewrite prefix_app in Hplain. }
    by rewrite Hnot, Hplain.
Qed.

Lemma strip_fences_spec_witness :
  GeminiService.strip_fences GeminiService.trim_nothing "```json{}```" = "{}".
Proof.
  destruct (strip_fences_spec GeminiService.trim_nothing "```json{}```" "{}")
    as (Hfenced & _ & _).
  apply Hfenced. reflexivity.
Defined.

(** ** The sentiment call *)

Section sentiment_call.
Import GeminiService GeminiCalls.

Lemma join_nonempty (part : string) (rest : list string) :
  part ≠ EmptyString → join (part :: rest) ≠ EmptyString.
Proof.
  intros Hpart. destruct part as [|ch part]; [done|].
  destruct rest as [|next rest]; [done|]. cbn [join]. by rewrite append_cons.
Qed.

(** The summary is empty exactly when the object has no entry. *)
Lemma signalSummary_empty (signals : list (string * App.SignalType)) :
  signalSummary signals = EmptyString ↔ signals = [].
Proof.
  unfold signalSummary. split.
  - intros Hempty. destruct signals as [|[symbol type] rest]; [done|]. exfalso.
    rewrite fmap_cons in Hempty. revert Hempty. apply join_nonempty.
    destruct symbol as [|ch symbol]; [|by rewrite append_cons].
    by rewrite append_nil, append_cons.
  - by intros ->.
Qed.

End sentiment_call.

(** X13.  [getMarketSentiment] asks the provider only when the object it is
    given has an entry: without entries it answers with the awaiting message
    whatever the provider would do; with entries it asks once, with the
    prompt whose summary lists them in the order of [Object.entries],
    separated by commas, and returns the provider's text or throws what the
    classifier throws.  The object the sentiment timer hands to the
    scheduler always has an entry, however its entries are ordered. *)
Theorem market_sentiment_spec {num : Type}
    (generateContent : string → GeminiService.GenerateContent) :
  GeminiCalls.getMarketSentiment generateContent [] = inr GeminiCalls.awaiting_message ∧
  (∀ symbol type rest,
     GeminiCalls.getMarketSentiment generateContent ((symbol, type) :: rest)
     = match generateContent
               (GeminiCalls.sentiment_prompt
                  (GeminiCalls.signalSummary ((symbol, type) :: rest))) with
       | GeminiService.Responds text => inr text
       | GeminiService.Rejects error => inl (GeminiService.handleApiError error)
       end ∧
     GeminiCalls.signalSummary ((symbol, type) :: rest)
     = match rest with
       | [] => symbol +:+ ": " +:+ GeminiCalls.signalType_text type
       | _ :: _ => (symbol +:+ ": " +:+ GeminiCalls.signalType_text type)
                   +:+ ", " +:+ GeminiCalls.signalSummary rest
       end) ∧
  (∀ STOCKS (stockData : gmap string (App.StockState num)) signals entries,
     App.GetMarketSentiment signals ∈ App.sentimentTimeout STOCKS stockData →
     entries ≡ₚ map_to_list signals →
     entries ≠ []).
Proof.
  split_and!.
  - reflexivity.
  - intros symbol type rest. split.
    + unfold GeminiCalls.getMarketSentiment. cbv zeta.
      by rewrite bool_decide_eq_false_2 by (by rewrite signalSummary_empty).
    + by destruct rest.
  - intros STOCKS stockData signals entries. unfold App.sentimentTimeout. cbv zeta.
    destruct (Nat.ltb_spec (length STOCKS) (2 * size (App.signalsForSentiment stockData)))
      as [Hquorum|_]; [|by intros ?%elem_of_nil].
    intros Hin%list_elem_of_singleton Hentries Hempty. injection Hin as Hin.
    rewrite Hempty in Hentries. symmetry in Hentries.
    apply Permutation_nil_r, map_to_list_empty_iff in Hentries.
    rewrite <- Hin, Hentries, map_size_empty in Hquorum. lia.
Qed.

Lemma market_sentiment_spec_witness :
  GeminiCalls.getMarketSentiment (λ prompt, GeminiService.Responds prompt)
    [("TCS", App.BUY); ("INFY", App.SELL)]
  = inr (GeminiCalls.sentiment_prompt "TCS: BUY, INFY: SELL").
Proof.
  destruct (market_sentiment_spec (num:=Q) (λ prompt, GeminiService.Responds prompt))
    as (_ & Hasked & _).
  destruct (Hasked "TCS" App.BUY [("INFY", App.SELL)]) as [-> _]. reflexivity.
Defined.

(** ** The chart's series *)

Section chart.
Context {num : Type} `{!JsNumber num} `{!JsMath num}.

Lemma for_loop_invariant {St : Type} (P : St → Prop) (from to : nat)
    (body : nat → St → St) (s : St) :
  P s →
  (∀ i s, from ≤ i < to → P s → P (body i s)) →
  P (for_loop from to body s).
Proof.
  unfold for_loop. intros Hs Hbody.
  assert (Hgen : ∀ n a s, from ≤ a → a + n ≤ Nat.max from to → P s →
            P (foldl (λ acc i, body i acc) s (seq a n))).
  { induction n as [|n IH]; intros a s0 Ha Hn Hs0; [done|]. cbn [seq foldl].
    apply IH; [lia..|]. apply Hbody; [lia|done]. }
  apply Hgen; [lia..|done].
Qed.

(** A loop that pushes one value per round builds the list of those
    values. *)
Lemma push_loop {B : Type} (f : nat → B) (pre : list B) (a n : nat) :
  foldl (λ acc i, acc ++ [f i]) pre (seq a n) = pre ++ (f <$> seq a n).
Proof.
  revert pre a. induction n as [|n IH]; intros pre a; cbn [seq foldl fmap list_fmap].
  - by rewrite app_nil_r.
  - rewrite IH. by rewrite <- app_assoc.
Qed.

Lemma calculateSMA_unfold (data : list num) (period : nat) :
  period ≤ length data →
  SparklineChart.calculateSMA data period
  = (λ i, foldl num_add (of_Z 0) (slice i (i + period) data) ⊘ of_nat period)
      <$> seq 0 (length data - period + 1).
Proof.
  intros Hlen. unfold SparklineChart.calculateSMA.
  destruct (Nat.ltb_spec (length data) period); [lia|]. cbv zeta. unfold for_loop.
  rewrite Nat.sub_0_r.
  by rewrite (push_loop
                (λ i, foldl num_add (of_Z 0) (slice i (i + period) data) ⊘ of_nat period)).
Qed.

Lemma chart_length_calculateEMA (prices : list num) (period : nat) :
  period ≤ length prices →
  length (SparklineChart.calculateEMA prices period) = length prices - period + 1.
Proof. apply (length_calculateEMA prices period). Qed.

Lemma length_macdLine (prices : list num) :
  26 ≤ length prices →
  length (SparklineChart.macdLine prices) = length prices - 25.
Proof.
  intros Hlen. unfold SparklineChart.macdLine. cbv zeta. rewrite length_imap.
  change (slice_from (26 - 12) (SparklineChart.calculateEMA prices 12))
    with (drop 14 (SparklineChart.calculateEMA prices 12)).
  rewrite length_drop, chart_length_calculateEMA; lia.
Qed.

Lemma length_assign (i : nat) (v : SparklineChart.Point num)
    (arr : list (SparklineChart.Point num)) :
  i < length arr → length (SparklineChart.assign i v arr) = length arr.
Proof.
  intros Hi. unfold SparklineChart.assign.
  destruct (Nat.ltb_spec i (length arr)); [|lia]. apply length_insert.
Qed.

Lemma marks_ok_assign (prices : list num) (marks : list (SparklineChart.Point num))
    (k : nat) :
  34 ≤ k → k < length prices →
  SparklineChart.marks_ok prices marks →
  SparklineChart.marks_ok prices
    (SparklineChart.assign k (SparklineChart.read prices k) marks).
Proof.
  intros Hk Hrange [Hlen Hmarks]. split; [rewrite length_assign; lia|].
  intros j p. unfold SparklineChart.assign.
  destruct (Nat.ltb_spec k (length marks)); [|lia].
  destruct (decide (j = k)) as [->|Hne].
  - rewrite list_lookup_insert_eq by lia. intros [= <-]. right. split; [lia|].
    unfold SparklineChart.read.
    destruct (lookup_lt_is_Some_2 prices k Hrange) as [price Hprice].
    rewrite Hprice. by exists price.
  - rewrite list_lookup_insert_ne by done. apply Hmarks.
Qed.

Lemma marks_ok_loop (prices aligned signal : list num) (n : nat) :
  33 + n ≤ length prices →
  let marks :=
    for_loop 1 n (SparklineChart.mark_crossover prices aligned signal)
      (replicate (length prices) SparklineChart.Null,
       replicate (length prices) SparklineChart.Null) in
  SparklineChart.marks_ok prices marks.1 ∧ SparklineChart.marks_ok prices marks.2.
Proof.
  intros Hn. cbv zeta.
  apply (for_loop_invariant (λ marks, SparklineChart.marks_ok prices marks.1 ∧ SparklineChart.marks_ok prices marks.2)).
  - assert (Hnull : SparklineChart.marks_ok prices (replicate (length prices) SparklineChart.Null)).
    { split; [apply length_replicate|]. intros j p [-> _]%lookup_replicate. by left. }
    by split.
  - intros i [buy sell] Hi [Hbuy Hsell]. unfold SparklineChart.mark_crossover. cbv zeta.
    cbn [fst snd] in *.
    split.
    + destruct (_ && _); [apply marks_ok_assign; [lia..|done]|done].
    + destruct (compare num_ge _ _ && _); [apply marks_ok_assign; [lia..|done]|done].
Qed.

End chart.

Section chart_series.
Context {num : Type} `{!JsNumber num} `{!JsMath num}.

(** The series of a chart with 35 candles or more, without the early
    returns. *)
Lemma chartSeries_long (candles : list (Candle num)) :
  35 ≤ length candles →
  let prices := close <$> candles in
  let marks :=
    for_loop 1 (length (SparklineChart.signalLine prices))
      (SparklineChart.mark_crossover prices
         (slice_from 8 (SparklineChart.macdLine prices))
         (SparklineChart.signalLine prices))
      (replicate (length prices) SparklineChart.Null,
       replicate (length prices) SparklineChart.Null) in
  SparklineChart.chartSeries candles
  = {| SparklineChart.buySignals := marks.1;
       SparklineChart.sellSignals := marks.2;
       SparklineChart.pointRadii :=
         imap (λ index candle,
                 SparklineChart.point_radius
                   (SparklineChart.calculateSMA (volume <$> candles) 20) index candle)
              candles;
       SparklineChart.paddedEma12 :=
         replicate 11 SparklineChart.Null
         ++ (SparklineChart.Value <$> SparklineChart.calculateEMA prices 12);
       SparklineChart.paddedEma26 :=
         replicate 25 SparklineChart.Null
         ++ (SparklineChart.Value <$> SparklineChart.calculateEMA prices 26) |}.
Proof.
  intros Hlen. cbv zeta. unfold SparklineChart.chartSeries.
  destruct (Nat.ltb_spec (length candles) 35); [lia|]. cbv zeta.
  assert (Hprices : length (close <$> candles) = length candles) by apply length_fmap.
  destruct (Nat.ltb_spec (length (SparklineChart.macdLine (close <$> candles))) 9)
    as [Hshort|_]; [rewrite length_macdLine in Hshort; lia|].
  fold (SparklineChart.signalLine (close <$> candles)).
  by destruct (for_loop 1 _ _ _) as [buy sell].
Qed.

Lemma length_signalLine (prices : list num) :
  35 ≤ length prices →
  length (SparklineChart.signalLine prices) = length prices - 33.
Proof.
  intros Hlen. unfold SparklineChart.signalLine.
  rewrite chart_length_calculateEMA; rewrite length_macdLine; lia.
Qed.

End chart_series.

(** X14.  [calculateSMA] returns nothing for a series shorter than the
    period; otherwise it returns [len - period + 1] values, the value at
    index [i] being the arithmetic mean of the [period] samples from index
    [i] on. *)
Theorem calculateSMA_spec {num : Type} `{!JsNumber num} `{!JsMath num}
    (data : list num) (period : nat) :
  let sma := SparklineChart.calculateSMA data period in
  (length data < period → sma = []) ∧
  (period ≤ length data →
     length sma = length data - period + 1 ∧
     ∀ i, i + period ≤ length data →
       sma !! i = Some (IndicatorSpec.mean (take period (drop i data)))).
Proof.
  cbv zeta. split.
  - intros Hshort. unfold SparklineChart.calculateSMA.
    by destruct (Nat.ltb_spec (length data) period); [|lia].
  - intros Hlen. rewrite calculateSMA_unfold by done. split.
    + by rewrite length_fmap, length_seq.
    + intros i Hi. rewrite list_lookup_fmap, lookup_seq_lt by lia. cbn.
      unfold slice, IndicatorSpec.mean. replace (i + period - i) with period by lia.
      by rewrite length_take, length_drop, Nat.min_l by lia.
Qed.

Lemma calculateSMA_spec_witness :
  SparklineChart.calculateSMA [1#1; 2#1; 3#1; 6#1]%Q 2 !! 2 = Some (9#2)%Q.
Proof.
  destruct (calculateSMA_spec [1#1; 2#1; 3#1; 6#1]%Q 2) as [_ Hlong].
  destruct Hlong as [_ Hvalue]; [simpl; lia|].
  rewrite Hvalue; [reflexivity|simpl; lia].
Defined.

(** X15.  The EMA starts from the SMA: when the series has at least
    [period] samples the first value of [calculateEMA] is the first value of
    [calculateSMA]. *)
Theorem ema_seed_is_first_sma {num : Type} `{!JsNumber num} `{!JsMath num}
    (prices : list num) (period : nat) :
  period ≤ length prices →
  SparklineChart.calculateEMA prices period !! 0
  = SparklineChart.calculateSMA prices period !! 0.
Proof.
  intros Hlen.
  change (SparklineChart.calculateEMA prices period)
    with (GeminiService.calculateEMA prices period).
  rewrite calculateEMA_unfold, calculateSMA_unfold by done.
  rewrite list_lookup_fmap, lookup_seq_lt by lia. cbn.
  unfold slice, IndicatorSpec.mean. rewrite drop_0, Nat.sub_0_r.
  rewrite length_take, Nat.min_l by done. by destruct (drop period prices).
Qed.

Lemma ema_seed_is_first_sma_witness :
  SparklineChart.calculateEMA [1#1; 2#1; 3#1; 6#1]%Q 2 !! 0
  = SparklineChart.calculateSMA [1#1; 2#1; 3#1; 6#1]%Q 2 !! 0.
Proof. apply ema_seed_is_first_sma. simpl. lia. Defined.

(** X16.  The chart draws nothing on fewer than 35 candles.  On 35 candles
    or more each of its five series has one entry per candle; the EMA 12
    series is empty at its first 11 entries and carries the EMA values
    after them, and the EMA 26 series likewise after 25 empty entries. *)
Theorem chart_series_aligned {num : Type} `{!JsNumber num} `{!JsMath num}
    (candles : list (Candle num)) :
  let series := SparklineChart.chartSeries candles in
  let prices := close <$> candles in
  (length candles < 35 →
     series = SparklineChart.mkSeries [] [] [] [] []) ∧
  (35 ≤ length candles →
     length (SparklineChart.buySignals series) = length candles ∧
     length (SparklineChart.sellSignals series) = length candles ∧
     length (SparklineChart.pointRadii series) = length candles ∧
     length (SparklineChart.paddedEma12 series) = length candles ∧
     length (SparklineChart.paddedEma26 series) = length candles ∧
     (∀ j, j < 11 → SparklineChart.paddedEma12 series !! j = Some SparklineChart.Null) ∧
     (∀ j, SparklineChart.paddedEma12 series !! (11 + j)
           = SparklineChart.Value <$> SparklineChart.calculateEMA prices 12 !! j) ∧
     (∀ j, j < 25 → SparklineChart.paddedEma26 series !! j = Some SparklineChart.Null) ∧
     (∀ j, SparklineChart.paddedEma26 series !! (25 + j)
           = SparklineChart.Value <$> SparklineChart.calculateEMA prices 26 !! j)).
Proof.
  cbv zeta. split.
  - intros Hshort. unfold SparklineChart.chartSeries.
    by destruct (Nat.ltb_spec (length candles) 35); [|lia].
  - intros Hlen. rewrite chartSeries_long by done.
    cbn [SparklineChart.buySignals SparklineChart.sellSignals SparklineChart.pointRadii
         SparklineChart.paddedEma12 SparklineChart.paddedEma26].
    assert (Hprices : length (close <$> candles) = length candles) by apply length_fmap.
    destruct (marks_ok_loop (close <$> candles)
                (slice_from 8 (SparklineChart.macdLine (close <$> candles)))
                (SparklineChart.signalLine (close <$> candles))
                (length (SparklineChart.signalLine (close <$> candles))))
      as [[Hbuy _] [Hsell _]].
    { rewrite length_signalLine; lia. }
    split_and!.
    + by rewrite Hbuy.
    + by rewrite Hsell.
    + apply length_imap.
    + rewrite length_app, length_replicate, length_fmap, chart_length_calculateEMA; lia.
    + rewrite length_app, length_replicate, length_fmap, chart_length_calculateEMA; lia.
    + intros j Hj. rewrite lookup_app_l by (rewrite length_replicate; lia).
      by apply lookup_replicate_2.
    + intros j. rewrite lookup_app_r by (rewrite length_replicate; lia).
      rewrite length_replicate, list_lookup_fmap. f_equal. f_equal. lia.
    + intros j Hj. rewrite lookup_app_l by (rewrite length_replicate; lia).
      by apply lookup_replicate_2.
    + intros j. rewrite lookup_app_r by (rewrite length_replicate; lia).
      rewrite length_replicate, list_lookup_fmap. f_equal. f_equal. lia.
Qed.

Lemma chart_series_aligned_witness :
  length (SparklineChart.buySignals (SparklineChart.chartSeries (Samples.rising 40))) = 40.
Proof.
  destruct (chart_series_aligned (Samples.rising 40)) as [_ Hlong].
  destruct Hlong as (Hbuy & _); [vm_compute; lia|].
  rewrite Hbuy. vm_compute. reflexivity.
Defined.

(** X17.  A crossover marker is never drawn before index 34, and where one
    is drawn it sits at the closing price of that candle: every entry of the
    buy and sell series is empty or the close of the candle at its index. *)
Theorem crossover_markers_sit_on_prices {num : Type} `{!JsNumber num} `{!JsMath num}
    (candles : list (Candle num)) (j : nat) (p : SparklineChart.Point num) :
  SparklineChart.buySignals (SparklineChart.chartSeries candles) !! j = Some p ∨
  SparklineChart.sellSignals (SparklineChart.chartSeries candles) !! j = Some p →
  p = SparklineChart.Null ∨
  (34 ≤ j ∧ ∃ candle, candles !! j = Some candle ∧ p = SparklineChart.Value (close candle)).
Proof.
  destruct (Nat.lt_ge_cases (length candles) 35) as [Hshort|Hlen].
  { unfold SparklineChart.chartSeries.
    destruct (Nat.ltb_spec (length candles) 35); [|lia]. cbn. by intros [?|?]. }
  rewrite chartSeries_long by done.
  cbn [SparklineChart.buySignals SparklineChart.sellSignals SparklineChart.pointRadii
         SparklineChart.paddedEma12 SparklineChart.paddedEma26].
  assert (Hprices : length (close <$> candles) = length candles) by apply length_fmap.
  destruct (marks_ok_loop (close <$> candles)
              (slice_from 8 (SparklineChart.macdLine (close <$> candles)))
              (SparklineChart.signalLine (close <$> candles))
              (length (SparklineChart.signalLine (close <$> candles))))
    as [[_ Hbuy] [_ Hsell]].
  { rewrite length_signalLine; lia. }
  assert (Hclose : ∀ p, (p = SparklineChart.Null ∨
              (34 ≤ j ∧ ∃ price, (close <$> candles) !! j = Some price
                                 ∧ p = SparklineChart.Value price)) →
            p = SparklineChart.Null ∨
            (34 ≤ j ∧ ∃ candle, candles !! j = Some candle
                                ∧ p = SparklineChart.Value (close candle))).
  { intros q [->|(Hj & price & Hprice & ->)]; [by left|right]. split; [done|].
    rewrite list_lookup_fmap in Hprice.
    destruct (candles !! j) as [candle|]; [|done]. injection Hprice as <-.
    by exists candle. }
  intros [Hp|Hp]; apply Hclose; [by apply Hbuy|by apply Hsell].
Qed.

Lemma crossover_markers_sit_on_prices_witness :
  SparklineChart.buySignals (SparklineChart.chartSeries (Samples.rising 40)) !! 10
  = Some SparklineChart.Null.
Proof.
  destruct (SparklineChart.buySignals (SparklineChart.chartSeries (Samples.rising 40)) !! 10)
    as [p|] eqn:Hp.
  - destruct (crossover_markers_sit_on_prices (Samples.rising 40) 10 p) as [->|[Hj _]];
      [by left|reflexivity|lia].
  - vm_compute in Hp. discriminate.
Defined.

Section chart_and_service.
Context {num : Type} `{!JsNumber num} `{!JsMath num}.

Lemma calculateSMA_lookup (data : list num) (period i : nat) :
  i + period ≤ length data →
  SparklineChart.calculateSMA data period !! i
  = Some (IndicatorSpec.mean (take period (drop i data))).
Proof.
  intros Hi. rewrite calculateSMA_unfold by lia.
  rewrite list_lookup_fmap, lookup_seq_lt by lia. cbn.
  unfold slice, IndicatorSpec.mean. replace (i + period - i) with period by lia.
  by rewrite length_take, length_drop, Nat.min_l by lia.
Qed.

(** [calculateMACD] on 35 candles or more, without its early returns. *)
Lemma calculateMACD_long (candles : list (Candle num)) :
  35 ≤ length candles →
  GeminiService.calculateMACD candles 12 26 9
  = (m ← last (SparklineChart.macdLine (close <$> candles));
     s ← last (SparklineChart.signalLine (close <$> candles));
     Some {| GeminiService.macdLine := toFixed2 m;
             GeminiService.signalLine := toFixed2 s;
             GeminiService.histogram := toFixed2 (m ⊖ s) |}) ∧
  is_Some (GeminiService.calculateMACD candles 12 26 9).
Proof.
  intros Hlen.
  assert (Hprices : length (close <$> candles) = length candles) by apply length_fmap.
  assert (Hunfold : GeminiService.calculateMACD candles 12 26 9
    = (m ← last (SparklineChart.macdLine (close <$> candles));
       s ← last (SparklineChart.signalLine (close <$> candles));
       Some {| GeminiService.macdLine := toFixed2 m;
               GeminiService.signalLine := toFixed2 s;
               GeminiService.histogram := toFixed2 (m ⊖ s) |})).
  { unfold GeminiService.calculateMACD. cbv zeta.
    destruct (Nat.ltb_spec (length (close <$> candles)) (26 + 9)); [lia|].
    change (imap _ (slice_from _ (GeminiService.calculateEMA (close <$> candles) 12)))
      with (SparklineChart.macdLine (close <$> candles)).
    destruct (Nat.ltb_spec (length (SparklineChart.macdLine (close <$> candles))) 9)
      as [Hshort|_]; [rewrite length_macdLine in Hshort; lia|].
    change (GeminiService.calculateEMA (SparklineChart.macdLine (close <$> candles)) 9)
      with (SparklineChart.signalLine (close <$> candles)).
    destruct (last (SparklineChart.macdLine _)) as [m|]; [|done].
    by destruct (last (SparklineChart.signalLine _)) as [s|]. }
  split; [done|]. rewrite Hunfold.
  destruct (last_nonempty (SparklineChart.macdLine (close <$> candles))) as [m ->].
  { rewrite length_macdLine; lia. }
  destruct (last_nonempty (SparklineChart.signalLine (close <$> candles))) as [s ->].
  { rewrite length_signalLine; lia. }
  by eexists.
Qed.

Lemma calculateRSI_present (candles : list (Candle num)) (period : nat) :
  period < length candles → is_Some (GeminiService.calculateRSI candles period).
Proof.
  intros Hlen. unfold GeminiService.calculateRSI.
  destruct (Nat.leb_spec (length candles) period); [lia|].
  destruct (for_loop 1 _ _ _) as [gains losses].
  destruct (for_loop (period + 1) _ _ _) as [avgGain avgLoss].
  by destruct (num_seq avgLoss (of_Z 0)).
Qed.

End chart_and_service.

(** X18.  The chart and the service agree on MACD: on 35 candles or more the
    values [calculateMACD] reports are the last point of the chart's MACD line
    and the last point of its signal line, rounded, and their rounded
    difference; the crossover markers are drawn from the lines whose last
    values go to the provider. *)
Theorem chart_and_service_macd_agree {num : Type} `{!JsNumber num} `{!JsMath num}
    (candles : list (Candle num)) :
  35 ≤ length candles →
  ∃ m s,
    last (SparklineChart.macdLine (close <$> candles)) = Some m ∧
    last (SparklineChart.signalLine (close <$> candles)) = Some s ∧
    GeminiService.calculateMACD candles 12 26 9
    = Some {| GeminiService.macdLine := toFixed2 m;
              GeminiService.signalLine := toFixed2 s;
              GeminiService.histogram := toFixed2 (m ⊖ s) |}.
Proof.
  intros Hlen. destruct (calculateMACD_long candles Hlen) as [Hunfold [result Hresult]].
  rewrite Hunfold in Hresult |- *.
  destruct (last (SparklineChart.macdLine _)) as [m|]; [|done].
  destruct (last (SparklineChart.signalLine _)) as [s|]; [|done].
  by exists m, s.
Qed.

Lemma chart_and_service_macd_agree_witness :
  last (SparklineChart.macdLine (close <$> Samples.rising 35)) = Some (7#1)%Q.
Proof.
  destruct (chart_and_service_macd_agree (Samples.rising 35)) as (m & s & Hm & _ & _);
    [vm_compute; lia|].
  vm_compute. reflexivity.
Defined.

(** X19.  A point of the price line is highlighted exactly when the volume
    of its candle exceeds 1.75 times the mean volume of the 20 candles that
    end with it; the first 19 points are never highlighted. *)
Theorem high_volume_points {num : Type} `{!JsNumber num} `{!JsMath num}
    (candles : list (Candle num)) (index : nat) (candle : Candle num) :
  35 ≤ length candles →
  candles !! index = Some candle →
  SparklineChart.pointRadii (SparklineChart.chartSeries candles) !! index
  = Some (if (19 <=? index)
             && num_gt (volume candle)
                  (IndicatorSpec.mean (take 20 (drop (index - 19) (volume <$> candles)))
                   ⊗ of_decimal (Qmake 175 100))
          then of_decimal (Qmake 25 10) else of_Z 0).
Proof.
  intros Hlen Hcandle. rewrite chartSeries_long by done.
  cbn [SparklineChart.pointRadii]. rewrite list_lookup_imap, Hcandle. cbn [fmap option_fmap option_map].
  f_equal. unfold SparklineChart.point_radius. cbv zeta.
  pose proof (lookup_lt_Some _ _ _ Hcandle) as Hindex.
  destruct (Nat.leb_spec 19 index) as [Hge|Hlt].
  - destruct (Z.leb_spec 0 (Z.of_nat index - 19)); [|lia].
    replace (Z.to_nat (Z.of_nat index - 19)) with (index - 19) by lia.
    rewrite calculateSMA_lookup by (rewrite length_fmap; lia). done.
  - destruct (Z.leb_spec 0 (Z.of_nat index - 19)); [lia|]. done.
Qed.

Lemma high_volume_points_witness :
  SparklineChart.pointRadii (SparklineChart.chartSeries (Samples.rising 35)) !! 5
  = Some (0#1)%Q.
Proof.
  erewrite (high_volume_points (Samples.rising 35) 5); [reflexivity|vm_compute; lia|].
  vm_compute. reflexivity.
Defined.

(** ** Generated candles *)

Section generated.
Context {num : Type} `{!JsNumber num} `{!JsMath num}.
Variable random : nat → num.
Variable now : num.

(** Every round of the generator pushes one candle. *)
Lemma walk_pushes_one_per_round (count a n : nat) (w : MockData.Walk) :
  length (MockData.candles
            (foldl (λ acc i, MockData.walk_step random now count i acc) w (seq a n)))
  = length (MockData.candles w) + n.
Proof.
  revert a w. induction n as [|n IH]; intros a w; cbn [seq foldl]; [lia|].
  rewrite IH. unfold MockData.walk_step. cbv zeta. cbn [MockData.candles].
  rewrite length_app. cbn. lia.
Qed.

End generated.

(** X20.  [generateCandles] returns exactly [count] candles whatever the
    random numbers are.  With its default of 100 candles a refresh always
    has enough history for both indicators: the RSI and the MACD computed
    from freshly generated candles are never absent. *)
Theorem generated_candles_suffice {num : Type} `{!JsNumber num} `{!JsMath num}
    (random : nat → num) (now : num) :
  (∀ count initialPrice draws,
     length (MockData.generateCandles_from random now count initialPrice draws) = count) ∧
  length (MockData.generateCandles random now) = 100 ∧
  is_Some (GeminiService.calculateRSI (MockData.generateCandles random now) 14) ∧
  is_Some (GeminiService.calculateMACD (MockData.generateCandles random now) 12 26 9).
Proof.
  assert (Hcount : ∀ count initialPrice draws,
    length (MockData.generateCandles_from random now count initialPrice draws) = count).
  { intros count initialPrice draws. unfold MockData.generateCandles_from, for_loop.
    rewrite walk_pushes_one_per_round. cbn. lia. }
  assert (Hdefault : length (MockData.generateCandles random now) = 100)
    by apply Hcount.
  split_and!; [done..| |].
  - apply calculateRSI_present. lia.
  - apply calculateMACD_long. lia.
Qed.

(** ** The stock card *)

(** X21.  What a card shows in a state the running component reaches.  A
    machine that is ONLINE shows its signal label, has the Ask AI button
    enabled and shows headlines or the no-news note, never the error panel
    or the skeleton.  A machine with a recorded, non-empty error shows the
    error panel with that message, hides the signal label and has the
    button disabled.  Headlines are the first three news items at most. *)
Theorem card_follows_machine {num : Type} (STOCKS : list string)
    (REFRESH_INTERVAL_SECONDS : Z) (maxConcurrent : nat) (st : App.AppState num)
    (symbol : string) (s : App.StockState num) :
  App.reachable STOCKS REFRESH_INTERVAL_SECONDS maxConcurrent st →
  App.stockData st !! symbol = Some s →
  (App.status s = App.ONLINE →
     StockCard.showsSignal s = true ∧
     StockCard.askAiDisabled s = false ∧
     ∃ sg, App.signal s = Some sg ∧
       StockCard.newsSection s
       = if 0 <? length (App.news sg) then StockCard.Headlines (take 3 (App.news sg))
         else StockCard.NoRecentNews) ∧
  (∀ message,
     App.error s = Some message → message ≠ EmptyString →
     StockCard.newsSection s = StockCard.DataUnavailable message ∧
     StockCard.showsSignal s = false ∧
     StockCard.askAiDisabled s = true) ∧
  (∀ items,
     StockCard.newsSection s = StockCard.Headlines items →
     0 < length items ≤ 3 ∧
     ∃ sg, App.signal s = Some sg ∧ items = take 3 (App.news sg)).
Proof.
  intros Hreach Hs.
  destruct (reachable_fields_agree _ _ _ st symbol s Hreach Hs) as (Herr & Honline & _).
  split_and!.
  - intros Hstatus. destruct (Honline Hstatus) as [[sg Hsg] Hnoerr].
    unfold StockCard.showsSignal, StockCard.askAiDisabled, StockCard.newsSection.
    rewrite Hsg, Hnoerr, Hstatus. cbn. split_and!; [done..|]. by exists sg.
  - intros message Hmessage Hnonempty.
    assert (Hoff : App.status s = App.OFFLINE) by (apply Herr; by rewrite Hmessage).
    assert (Htruthy : StockCard.truthy_text (App.error s) = true).
    { rewrite Hmessage. cbn. by rewrite bool_decide_eq_false_2. }
    unfold StockCard.showsSignal, StockCard.askAiDisabled, StockCard.newsSection.
    cbv zeta. rewrite Htruthy, Hoff, Hmessage, bool_decide_eq_true_2 by done.
    split_and!; [done|by rewrite andb_false_r|by rewrite orb_true_r].
  - intros items. unfold StockCard.newsSection. cbv zeta.
    destruct (bool_decide (App.status s = App.OFFLINE) && _); [done|].
    destruct (App.signal s) as [sg|]; [|by destruct (negb _)].
    destruct (Nat.ltb_spec 0 (length (App.news sg))) as [Hnews|?]; [|done].
    intros [= <-]. unfold slice. rewrite drop_0, Nat.sub_0_r, length_take.
    split; [lia|]. by exists sg.
Qed.

Lemma card_follows_machine_witness :
  ∃ s, App.stockData (Samples.state_after Samples.one_second_left) !! "TCS" = Some s ∧
       StockCard.askAiDisabled s = false.
Proof.
  eexists. split; [vm_compute; reflexivity|].
  eapply (card_follows_machine Samples.symbols Samples.interval Samples.slots
            (Samples.state_after Samples.one_second_left) "TCS").
  - apply state_after_reachable. vm_compute. eexists. reflexivity.
  - vm_compute. reflexivity.
  - reflexivity.
Defined.

(** ** The prices in the prompt *)

(** X22.  The prompt of [getStockSignal] lists the closing prices of the 50
    most recent candles, or of all of them when there are fewer: the candles
    it takes are the tail of the series, and there are [min 50 n] of them. *)
Theorem prompt_lists_recent_candles {num : Type} (candles : list (Candle num)) :
  length (GeminiCalls.promptCandles candles) = Nat.min 50 (length candles) ∧
  ∃ older, candles = older ++ GeminiCalls.promptCandles candles.
Proof.
  unfold GeminiCalls.promptCandles, slice_from.
  change (-50 <? 0)%Z with true. cbv iota.
  split.
  - rewrite length_drop. lia.
  - exists (take (Z.to_nat (Z.max (Z.of_nat (length candles) + -50) 0)) candles).
    by rewrite take_drop.
Qed.

(** ** A chat that fails *)

(** X23.  When the chat provider answers, the transcript ends with its
    text.  When it fails, the transcript ends, flagged as an error, with the
    message the classifier chose for the value thrown: the invalid-key or the
    rate-limit message when the lower-cased message has the marker, the
    network message for a [TypeError], the generic message otherwise.  When
    the classifier cannot read the message of that value ([null],
    [undefined], a message that is not text) its own [TypeError] reaches the
    handler, and the transcript ends with "An unknown error occurred.". *)
Theorem chat_answer_or_classified_failure {num : Type} (symbol : string)
    (currentHistory : list App.ChatMessage)
    (response : GeminiService.GenerateContent)
    (prev : gmap string (App.StockState num)) (entry : App.StockState num) :
  prev !! symbol = Some entry →
  App.handleSendMessage_settled symbol currentHistory
    (GeminiCalls.getChatResponse response) prev !! symbol
  = Some (App.chat_entry
            (currentHistory ++
             [match response with
              | GeminiService.Responds text => App.modelChatMessage text
              | GeminiService.Rejects error =>
                  App.errorChatMessage
                    match GeminiService.lowered_message error with
                    | inl _ => "An unknown error occurred."
                    | inr message_lc =>
                        if GeminiService.includes message_lc "api key not valid"
                        then GeminiService.invalid_key_message
                        else if GeminiService.includes message_lc "429"
                                || GeminiService.includes message_lc "resource_exhausted"
                        then GeminiService.rate_limit_message
                        else if GeminiService.instanceof error GeminiService.TypeError
                        then GeminiService.network_message
                        else GeminiService.unexpected_message
                    end
              end])
            entry).
Proof.
  intros Hentry. destruct response as [error|text]; cbn;
    unfold App.setChatHistory; rewrite lookup_alter_eq, Hentry; cbn; [|done].
  do 4 f_equal. unfold GeminiService.handleApiError.
  destruct (GeminiService.lowered_message error) as [complaint|message_lc]; [done|].
  destruct (GeminiService.includes _ "api key not valid"); [done|].
  destruct (GeminiService.includes _ "429" || GeminiService.includes _ "resource_exhausted");
    [done|].
  by destruct (GeminiService.instanceof error GeminiService.TypeError).
Qed.

Lemma chat_answer_or_classified_failure_witness :
  App.handleSendMessage_settled "TCS" [App.userChatMessage "Why buy?"]
    (GeminiCalls.getChatResponse
       (GeminiService.Rejects
          (GeminiService.Nullish "Cannot read properties of null (reading 'message')")))
    {[ "TCS" := App.mkStock (num:=Q) "TCS" [] (Some Samples.buy) 60 App.ONLINE [] None ]}
    !! "TCS"
  = Some (App.mkStock (num:=Q) "TCS" [] (Some Samples.buy) 60 App.ONLINE
            [App.userChatMessage "Why buy?";
             App.errorChatMessage "An unknown error occurred."] None).
Proof.
  etrans.
  - apply (chat_answer_or_classified_failure (num:=Q) "TCS" [App.userChatMessage "Why buy?"]
             (GeminiService.Rejects
                (GeminiService.Nullish "Cannot read properties of null (reading 'message')"))
             {[ "TCS" := App.mkStock (num:=Q) "TCS" [] (Some Samples.buy) 60 App.ONLINE
                           [] None ]}
             (App.mkStock (num:=Q) "TCS" [] (Some Samples.buy) 60 App.ONLINE [] None)).
    reflexivity.
  - reflexivity.
Defined.
